(** * Spoken-numeral normalisation of NeuroVoice ([ai_code/peech_utils.py])

    A shallow embedding of the three converters [cn2an], [en2an] and
    [ar2an], and the properties of the written specification that hold (or
    fail) on them.

    Python values are modelled as follows.
    - [str] is a list of Unicode code points ([list N]); iterating a string
      yields its code points one by one.
    - [int] is [Z] (unbounded).
    - [dict] literals are finite maps ([gmap]) built from their items.
    - a list indexed by position is a [list] read with [!!] and written
      with [<[_:=_]>]; an index out of range raises [IndexError].
    - a [while] loop is run with a loop bound; reaching the bound is the
      outcome [OutOfFuel], which the theorems below show never happens.
    - the float of [math.log10] is a parameter of [cn2an].

    The file also embeds [delete_punctuation], the two readers of Praat's
    voiced and unvoiced segments ([duration_from_vuvInfo] and the loop of
    [duration_from_vuvTextGrid]; Python's [float] is a parameter of both)
    and the text helpers [allowed_file] and [label_text] of the prediction
    service ([Software/Backend/api.py]), with properties read off the
    code. *)

From stdpp Require Import base option list numbers gmap strings pretty.
From Stdlib Require Import ZArith Lia.

Local Open Scope Z_scope.

(** ** The Python runtime used by the converters *)

Module Py.

(** A Python [str]: its code points. *)
Abbreviation str := (list N).

(** The bytes of a literal of this file. *)
Definition bytes (s : string) : list N :=
  (λ a, Ascii.N_of_ascii a) <$> String.list_ascii_of_string s.

(** UTF-8 decoding, used only to write the literals of the source
    ([u "..."], as in the source's [u'...']) in this file. *)
Fixpoint utf8 (bs : list N) : str :=
  match bs with
  | [] => []
  | b0 :: r0 =>
    if (b0 <? 0x80)%N then b0 :: utf8 r0
    else
      match r0 with
      | [] => []
      | b1 :: r1 =>
        if (b0 <? 0xE0)%N
        then ((b0 - 0xC0) * 0x40 + (b1 - 0x80))%N :: utf8 r1
        else
          match r1 with
          | [] => []
          | b2 :: r2 =>
            if (b0 <? 0xF0)%N
            then ((b0 - 0xE0) * 0x1000 + (b1 - 0x80) * 0x40
                  + (b2 - 0x80))%N :: utf8 r2
            else
              match r2 with
              | [] => []
              | b3 :: r3 =>
                ((b0 - 0xF0) * 0x40000 + (b1 - 0x80) * 0x1000
                 + (b2 - 0x80) * 0x40 + (b3 - 0x80))%N :: utf8 r3
              end
          end
      end
  end.

Definition u (s : string) : str := utf8 (bytes s).

(** [str.isspace] on one code point: the white space of [str.split()]. *)
Definition isspace (c : N) : bool :=
  ((0x09 <=? c) && (c <=? 0x0D) || (0x1C <=? c) && (c <=? 0x20)
   || (c =? 0x85) || (c =? 0xA0) || (c =? 0x1680)
   || (0x2000 <=? c) && (c <=? 0x200A)
   || (c =? 0x2028) || (c =? 0x2029) || (c =? 0x202F) || (c =? 0x205F)
   || (c =? 0x3000))%N.

(** [s.split()]: the maximal runs of non-space code points, in order.
    [word] is the run being read. *)
Fixpoint split_from (word : str) (s : str) : list str :=
  match s with
  | [] => match word with [] => [] | _ => [word] end
  | c :: s' =>
    if isspace c
    then match word with
         | [] => split_from [] s'
         | _ => word :: split_from [] s'
         end
    else split_from (word ++ [c]) s'
  end.

Definition split (s : str) : list str := split_from [] s.

(** [sep.join(words)]. *)
Definition join (sep : str) (words : list str) : str :=
  match words with
  | [] => []
  | w :: ws => w ++ mjoin ((λ x, sep ++ x) <$> ws)
  end.

(** [s.replace(old, new)] for one-character [old] and [new]. *)
Definition replace (old new : N) (s : str) : str :=
  (λ c, if decide (c = old) then new else c) <$> s.

(** [s.lower()]. The letters A-Z go to a-z. Two code points outside ASCII
    have a lower-case form that holds an ASCII letter: U+0130 (to "i"
    followed by U+0307) and U+212A, the Kelvin sign (to "k"). Every other
    code point outside ASCII lowers to code points outside ASCII and is
    left as it is here: no key of the tables of [en2an] holds a code
    point outside ASCII, so [en2an] cannot tell the difference. No
    lower-case form holds white space or a hyphen. *)
Definition lower_char (c : N) : str :=
  if ((0x41 <=? c) && (c <=? 0x5A))%N then [(c + 0x20)%N]
  else if (c =? 0x130)%N then [0x69; 0x307]%N
  else if (c =? 0x212A)%N then [0x6B]%N
  else [c].

Definition lower (s : str) : str := mjoin (lower_char <$> s).

(** The code points of value zero of the Unicode decimal digits
    (category Nd, Unicode 14): each starts a run of ten digits 0-9. *)
Definition decimal_zeros : list N :=
  [ 0x30; 0x660; 0x6F0; 0x7C0; 0x966; 0x9E6; 0xA66; 0xAE6; 0xB66; 0xBE6;
    0xC66; 0xCE6; 0xD66; 0xDE6; 0xE50; 0xED0; 0xF20; 0x1040; 0x1090;
    0x17E0; 0x1810; 0x1946; 0x19D0; 0x1A80; 0x1A90; 0x1B50; 0x1BB0;
    0x1C40; 0x1C50; 0xA620; 0xA8D0; 0xA900; 0xA9D0; 0xA9F0; 0xAA50;
    0xABF0; 0xFF10; 0x104A0; 0x10D30; 0x11066; 0x110F0; 0x11136;
    0x111D0; 0x112F0; 0x11450; 0x114D0; 0x11650; 0x116C0; 0x11730;
    0x118E0; 0x11950; 0x11C50; 0x11D50; 0x11DA0; 0x16A60; 0x16AC0;
    0x16B50; 0x1D7CE; 0x1D7D8; 0x1D7E2; 0x1D7EC; 0x1D7F6; 0x1E140;
    0x1E2F0; 0x1E950; 0x1FBF0 ]%N.

(** [int(d)] guarded by [d.isnumeric()], for a one-character [d]:
    [int] accepts exactly the Unicode decimal digits, all of which are
    numeric; on any other numeric character it raises [ValueError]
    ([None] here), and a character that is not numeric is not tried. *)
Definition int_digit (d : N) : option Z :=
  match list_find (λ z, (z <= d)%N ∧ (d < z + 10)%N) decimal_zeros with
  | Some (_, z) => Some (Z.of_N (d - z))
  | None => None
  end.

(** The ASCII digits. *)
Definition is_ascii_digit (c : N) : Prop := (0x30 <= c)%N ∧ (c <= 0x39)%N.

(** [str(n)] for an integer: its decimal notation. *)
Definition str_of_int (n : Z) : str := bytes (pretty n).

(** The least integer that is not below the base-10 logarithm of [t]: on
    a power of ten, the exponent. This is the value of [math.log10] where
    the float is exact, as it is on 10 and 100. *)
Fixpoint log10_from (fuel : nat) (t : Z) : Z :=
  match fuel with
  | O => 0
  | S fuel' => if t <=? 1 then 0 else 1 + log10_from fuel' ((t + 9) / 10)
  end.

Definition log10_exact (t : Z) : Z :=
  log10_from (S (Z.to_nat (Z.log2 t))) t.

(** [s.strip(chars)]: the code points that satisfy [p] are removed from
    both ends; [s.strip()] removes white space. *)
Fixpoint lstrip_with (p : N → bool) (s : str) : str :=
  match s with
  | [] => []
  | c :: s' => if p c then lstrip_with p s' else s
  end.

Definition strip_with (p : N → bool) (s : str) : str :=
  reverse (lstrip_with p (reverse (lstrip_with p s))).

Definition strip (s : str) : str := strip_with isspace s.

(** [s.split(sep)] for a one-character [sep]: the pieces between the
    separators, the empty ones included; there is always one piece. *)
Fixpoint split_on (sep : N) (s : str) : list str :=
  match s with
  | [] => [[]]
  | c :: s' =>
    if decide (c = sep) then [] :: split_on sep s'
    else
      match split_on sep s' with
      | w :: ws => (c :: w) :: ws
      | [] => [[c]]
      end
  end.

(** [s] cut at its first [sep]: what stands before and after it. *)
Fixpoint cut_first (sep : N) (s : str) : option (str * str) :=
  match s with
  | [] => None
  | c :: s' =>
    if decide (c = sep) then Some ([], s')
    else
      match cut_first sep s' with
      | Some (a, b) => Some (c :: a, b)
      | None => None
      end
  end.

(** [s.rsplit(sep, 1)] for a one-character [sep]: [s] cut at its last
    [sep], or [s] alone when it holds none. *)
Definition rsplit1 (sep : N) (s : str) : list str :=
  match cut_first sep (reverse s) with
  | Some (a, b) => [reverse b; reverse a]
  | None => [s]
  end.

End Py.

Import Py.

(** ** Outcomes of a call *)

(** A call returns a value, raises [IndexError] (a list index out of
    range), or, in the model only, exhausts the bound of a [while] loop. *)
Inductive outcome (A : Type) : Type :=
  | Done (a : A)
  | IndexError
  | OutOfFuel.

Arguments Done {A} a.
Arguments IndexError {A}.
Arguments OutOfFuel {A}.

#[export] Instance outcome_ret : MRet outcome := λ A a, Done a.
#[export] Instance outcome_bind : MBind outcome := λ A B f m,
  match m with
  | Done a => f a
  | IndexError => IndexError
  | OutOfFuel => OutOfFuel
  end.

(** [l[i]] and [l[i] = x] for a non-negative index. *)
Definition getitem {A} (l : list A) (i : nat) : outcome A :=
  match l !! i with
  | Some x => Done x
  | None => IndexError
  end.

Definition setitem {A} (l : list A) (i : nat) (x : A) : outcome (list A) :=
  if decide (i < length l)%nat then Done (<[i:=x]> l) else IndexError.

(** [for x in xs: state = body(state, x)], where the body may raise. *)
Fixpoint for_each {A S} (xs : list A) (body : S → A → outcome S) (s : S)
  : outcome S :=
  match xs with
  | [] => Done s
  | x :: xs' => s' ← body s x; for_each xs' body s'
  end.

(** What a converter returns: a string or an integer. *)
Inductive value : Type :=
  | VStr (s : str)
  | VInt (n : Z).

(** ** The positional converter: [cn2an] *)

(** Coefficient. *)
Definition CN_NUM_items : list (str * Z) := Eval vm_compute in
  [ (u "〇", 0); (u "一", 1); (u "二", 2); (u "三", 3); (u "四", 4);
    (u "五", 5); (u "六", 6); (u "七", 7); (u "八", 8); (u "九", 9);
    (u "零", 0); (u "壹", 1); (u "贰", 2); (u "叁", 3); (u "肆", 4);
    (u "伍", 5); (u "陆", 6); (u "柒", 7); (u "捌", 8); (u "玖", 9);
    (u "貮", 2); (u "两", 2); (u "俩", 2); (u "倆", 2); (u "营", 0);
    (u "其", 7); (u "西", 7); (u "气", 7); (u "吧", 8); (u "就", 9) ].

Definition CN_NUM : gmap str Z := list_to_map CN_NUM_items.

(** Base. *)
Definition CN_UNIT_items : list (str * Z) := Eval vm_compute in
  [ (u "十", 10); (u "拾", 10); (u "是", 10); (u "实", 10); (u "时", 10);
    (u "百", 100); (u "佰", 100) ].

Definition CN_UNIT : gmap str Z := list_to_map CN_UNIT_items.

(** The first loop: the number appended to [tmp] for the character [d],
    if any. *)
Definition classify (d : N) : option Z :=
  match CN_NUM !! [d] with
  | Some v => Some v
  | None =>
    match CN_UNIT !! [d] with
    | Some v => Some v
    | None => int_digit d
    end
  end.

Definition tokenise_body (tmp : list Z) (d : N) : list Z :=
  match classify d with
  | Some v => tmp ++ [v]
  | None => tmp
  end.

Definition tokenise (chinese_number : str) : list Z :=
  foldl tokenise_body [] (reverse chinese_number).

(** The second loop, at index [i]: the state is [(tmp, tmp2)]. *)
Definition normalise_body (tmp_len : nat) (st : list Z * list Z) (i : nat)
  : outcome (list Z * list Z) :=
  let '(tmp, tmp2) := st in
  ti ← getitem tmp i;
  if decide (ti > 9) then
    if decide (i = tmp_len - 1)%nat then Done (tmp, tmp2 ++ [ti; 1])
    else
      tn ← getitem tmp (i + 1);
      if decide (tn > ti) then Done (tmp, tmp2 ++ [ti; 1])
      else if decide (tn > 9) then
        tmp' ← setitem tmp (i + 1) (tn * ti); Done (tmp', tmp2)
      else Done (tmp, tmp2 ++ [ti])
  else Done (tmp, tmp2 ++ [ti]).

Definition normalise (tmp : list Z) : outcome (list Z) :=
  let tmp_len := length tmp in
  st ← for_each (seq 0 tmp_len) (normalise_body tmp_len) (tmp, []);
  Done st.2.

Section positional.

(** [math.log10(t)], rounded up to an integer. The float [w] it returns is
    only compared with the integer [curW] ([curW < w]), which holds
    exactly when [curW] is below the least integer that is not below [w].
    The float is the exponent itself on the small powers of ten; on very
    large ones it can lie just beside the exponent, so the function is
    left open here. *)
Variable math_log10 : Z → Z.

(** [while curW < w: curW += 1; seq.append(-1)]. *)
Fixpoint pad_while (fuel : nat) (w : Z) (st : Z * list Z)
  : outcome (Z * list Z) :=
  match fuel with
  | O => OutOfFuel
  | S fuel' =>
    let '(curW, sq) := st in
    if decide (curW < w) then pad_while fuel' w (curW + 1, sq ++ [-1])
    else Done (curW, sq)
  end.

(** The third loop, at the element [t] of [tmp2]: the state is
    [(curW, seq)]. *)
Definition assemble_body (st : Z * list Z) (t : Z) : outcome (Z * list Z) :=
  let '(curW, sq) := st in
  if decide (t > 9) then
    let w := math_log10 t in
    pad_while (S (Z.to_nat (w - curW))) w (curW, sq)
  else Done (curW + 1, sq ++ [t]).

Definition assemble (tmp2 : list Z) : outcome (list Z) :=
  st ← for_each tmp2 assemble_body (0, []);
  Done st.2.

(** [while p < seqLen and seq[p] == -1: p += 1]. *)
Fixpoint skip_empty (fuel : nat) (sq : list Z) (p : nat) : outcome nat :=
  match fuel with
  | O => OutOfFuel
  | S fuel' =>
    if decide (p < length sq)%nat then
      sp ← getitem sq p;
      if decide (sp = -1) then skip_empty fuel' sq (p + 1)%nat else Done p
    else Done p
  end.

(** The move of a non-zero units digit to the slot before the first filled
    one. [p] starts at 1 and only grows, so [p - 1] is never negative. *)
Definition fixup (sq : list Z) : outcome (list Z) :=
  s0 ← getitem sq 0;
  cond ←
    (if decide (s0 > 0) then
       if decide (1 < length sq)%nat then
         s1 ← getitem sq 1; Done (bool_decide (s1 = -1))
       else Done false
     else Done false);
  if cond : bool then
    p ← skip_empty (S (length sq)) sq 1;
    s0 ← getitem sq 0;
    sq ← setitem sq (p - 1) s0;
    setitem sq 0 0
  else Done sq.

(** ["".join([str(n if n >= 0 else 0) for n in seq[::-1]])]. *)
Definition render (sq : list Z) : str :=
  mjoin ((λ n, str_of_int (if decide (n >= 0) then n else 0)) <$> reverse sq).

Definition cn2an (chinese_number : str) : outcome value :=
  let tmp := tokenise chinese_number in
  if decide (tmp = []) then Done (VInt (-1))
  else
    tmp2 ← normalise tmp;
    sq ← assemble tmp2;
    sq ← fixup sq;
    Done (VStr (render sq)).

End positional.

(** ** The multiplicative accumulators: [en2an] and [ar2an] *)

(** One turn of a loop either goes on with a new state or returns from
    the function. *)
Inductive step (S : Type) : Type :=
  | Continue (s : S)
  | Return (v : Z).

Arguments Continue {S} s.
Arguments Return {S} v.

(** Coefficient (for individual digits and irregular numbers). *)
Definition EN_NUM_items : list (str * Z) := Eval vm_compute in
  [ (u "zero", 0); (u "one", 1); (u "two", 2); (u "three", 3);
    (u "four", 4); (u "five", 5); (u "six", 6); (u "seven", 7);
    (u "eight", 8); (u "nine", 9); (u "ten", 10); (u "eleven", 11);
    (u "twelve", 12); (u "thirteen", 13); (u "fourteen", 14);
    (u "fifteen", 15); (u "sixteen", 16); (u "seventeen", 17);
    (u "eighteen", 18); (u "nineteen", 19) ].

Definition EN_NUM : gmap str Z := list_to_map EN_NUM_items.

(** Base (for tens and larger scales). *)
Definition EN_UNIT_items : list (str * Z) := Eval vm_compute in
  [ (u "twenty", 20); (u "thirty", 30); (u "forty", 40); (u "fifty", 50);
    (u "sixty", 60); (u "seventy", 70); (u "eighty", 80); (u "ninety", 90);
    (u "hundred", 100); (u "thousand", 1000); (u "million", 1000000);
    (u "billion", 1000000000); (u "trillion", 1000000000000) ].

Definition EN_UNIT : gmap str Z := list_to_map EN_UNIT_items.

Definition EN_AND : str := Eval vm_compute in u "and".
Definition HYPHEN : N := 0x2D.
Definition SPACE : N := 0x20.

(** The body of the loop of [en2an] at [word]; the state is
    [(current_number, result)]. The warning printed before [return -1]
    goes to the standard output and is not part of the result. *)
Definition en_body (word : str) (st : Z * Z) : step (Z * Z) :=
  let '(current_number, result) := st in
  match EN_NUM !! word with
  | Some v => Continue (current_number + v, result)
  | None =>
    match EN_UNIT !! word with
    | Some unit_value =>
      if decide (unit_value >= 100) then
        let current_number :=
          if decide (current_number = 0) then 1 else current_number in
        Continue (0, result + current_number * unit_value)
      else Continue (current_number + unit_value, result)
    | None =>
      if decide (word = EN_AND) then Continue (current_number, result)
      else Return (-1)
    end
  end.

(** [for word in words: ...], then [result += current_number]. *)
Fixpoint en_for (words : list str) (st : Z * Z) : Z :=
  match words with
  | [] => st.2 + st.1
  | word :: words' =>
    match en_body word st with
    | Continue st' => en_for words' st'
    | Return v => v
    end
  end.

Definition en_words (english_number_words : str) : list str :=
  split (replace HYPHEN SPACE (lower english_number_words)).

Definition en2an (english_number_words : str) : Z :=
  en_for (en_words english_number_words) (0, 0).

(** Arabic words to their numerical values. *)
Definition AR_NUM_items : list (str * Z) := Eval vm_compute in
  [ (u "صفر", 0); (u "واحد", 1); (u "اثنان", 2); (u "ثلاثة", 3);
    (u "أربعة", 4); (u "خمسة", 5); (u "ستة", 6); (u "سبعة", 7);
    (u "ثمانية", 8); (u "تسعة", 9); (u "عشرة", 10); (u "أحد عشر", 11);
    (u "اثنا عشر", 12); (u "ثلاثة عشر", 13); (u "أربعة عشر", 14);
    (u "خمسة عشر", 15); (u "ستة عشر", 16); (u "سبعة عشر", 17);
    (u "ثمانية عشر", 18); (u "تسعة عشر", 19); (u "عشرون", 20);
    (u "ثلاثون", 30); (u "أربعون", 40); (u "خمسون", 50); (u "ستون", 60);
    (u "سبعون", 70); (u "ثمانون", 80); (u "تسعون", 90); (u "مائة", 100);
    (u "مئتان", 200); (u "ثلاثمائة", 300); (u "ألف", 1000);
    (u "ألفان", 2000); (u "مليون", 1000000); (u "مليونان", 2000000);
    (u "مليار", 1000000000); (u "ملياران", 2000000000);
    (u "ترليون", 1000000000000) ].

Definition AR_NUM : gmap str Z := list_to_map AR_NUM_items.

(** Arabic conjunction (and). *)
Definition AR_CONJUNCTION : str := Eval vm_compute in u "و".

(** The body of the [while] loop of [ar2an] at the cursor [i], where
    [word = words[i]]; the state is [(i, current_number, result)]. *)
Definition ar_body (words : list str) (word : str) (st : nat * Z * Z)
  : step (nat * Z * Z) :=
  let '(i, current_number, result) := st in
  let two_word_phrase := join [SPACE] (take 2 (drop i words)) in
  match AR_NUM !! two_word_phrase with
  | Some v => Continue ((i + 2)%nat, current_number + v, result)
  | None =>
    match AR_NUM !! word with
    | Some value =>
      if decide (value >= 1000) then
        let current_number :=
          if decide (current_number = 0) then 1 else current_number in
        Continue ((i + 1)%nat, 0, result + current_number * value)
      else Continue ((i + 1)%nat, current_number + value, result)
    | None =>
      if decide (word = AR_CONJUNCTION)
      then Continue ((i + 1)%nat, current_number, result)
      else Return (-1)
    end
  end.

(** [while i < len(words): ...], then [result += current_number]. *)
Fixpoint ar_while (fuel : nat) (words : list str) (st : nat * Z * Z)
  : outcome Z :=
  match fuel with
  | O => OutOfFuel
  | S fuel' =>
    match words !! st.1.1 with
    | None => Done (st.2 + st.1.2)
    | Some word =>
      match ar_body words word st with
      | Continue st' => ar_while fuel' words st'
      | Return v => Done v
      end
    end
  end.

Definition ar2an (arabic_number_words : str) : outcome Z :=
  let words := split arabic_number_words in
  ar_while (S (length words)) words (0%nat, 0, 0).

(** ** The vocabulary of the properties *)

(** A filled slot, and a slot that may be the placeholder [-1]. *)
Definition digit (d : Z) : Prop := 0 ≤ d ≤ 9.
Definition slot (d : Z) : Prop := -1 ≤ d ≤ 9.

(** The list ends with a digit. *)
Definition ends_with_digit (l : list Z) : Prop :=
  ∃ d, last l = Some d ∧ digit d.

(** A character that maps to a coefficient, to a scale value or to a
    numeric digit. *)
Definition recognised (d : N) : Prop :=
  is_Some (CN_NUM !! [d]) ∨ is_Some (CN_UNIT !! [d]) ∨ is_Some (int_digit d).

(** The same as the specification words it, with the ASCII digits as the
    only digits. *)
Definition recognised_ascii (d : N) : Prop :=
  is_Some (CN_NUM !! [d]) ∨ is_Some (CN_UNIT !! [d]) ∨ is_ascii_digit d.

#[export] Instance recognised_dec (d : N) : Decision (recognised d).
Proof. unfold recognised. apply _. Defined.

#[export] Instance recognised_ascii_dec (d : N) :
  Decision (recognised_ascii d).
Proof. unfold recognised_ascii, is_ascii_digit. apply _. Defined.

(** A word the English loop does not recognise. *)
Definition en_unknown (word : str) : Prop :=
  EN_NUM !! word = None ∧ EN_UNIT !! word = None ∧ word ≠ EN_AND.

(** A token the Arabic loop does not recognise. *)
Definition ar_unknown (token : str) : Prop :=
  AR_NUM !! token = None ∧ token ≠ AR_CONJUNCTION.

#[export] Instance en_unknown_dec (word : str) : Decision (en_unknown word).
Proof. unfold en_unknown. apply _. Defined.

#[export] Instance ar_unknown_dec (token : str) : Decision (ar_unknown token).
Proof. unfold ar_unknown. apply _. Defined.

(** The tokens the cursor of [ar2an] stops at: a two-word phrase of the
    table where the two-word test succeeds, else the single word. *)
Fixpoint ar_tokens (words : list str) : list str :=
  match words with
  | [] => []
  | word :: rest =>
    let two_word_phrase := join [SPACE] (take 2 words) in
    match AR_NUM !! two_word_phrase with
    | Some _ =>
      two_word_phrase ::
        match rest with
        | [] => []
        | _ :: rest' => ar_tokens rest'
        end
    | None => word :: ar_tokens rest
    end
  end.

(** The implicit coefficient of a bare multiplier word. *)
Definition coefficient (current_number : Z) : Z :=
  if decide (current_number = 0) then 1 else current_number.

(** The multiplier rule at the word [word] of value [v], read at the
    cursor [i] of the Arabic loop. *)
Definition ar_multiplier_rule (words : list str) (i : nat) (word : str)
    (v : Z) : Prop :=
  ∀ cur res,
  ar_body words word (i, cur, res)
  = Continue ((i + 1)%nat, 0, res + coefficient cur * v).

(** Two code points that differ at most by the case of an ASCII letter. *)
Definition same_letter (c c' : N) : Prop :=
  c = c' ∨
  ((0x41 ≤ c)%N ∧ (c ≤ 0x5A)%N ∧ c' = (c + 0x20)%N) ∨
  ((0x41 ≤ c')%N ∧ (c' ≤ 0x5A)%N ∧ c = (c' + 0x20)%N).

#[export] Instance same_letter_dec (c c' : N) : Decision (same_letter c c').
Proof. unfold same_letter. apply _. Defined.

(** [c'] is [c] or [c] with its case changed, for the letters that are,
    or whose changed form is, an ASCII letter: besides A-Z and a-z,
    [str.upper] sends the dotless i (U+0131) to [I] and the long s
    (U+017F) to [S], and [str.lower] sends the Kelvin sign (U+212A) to
    [k]; no other code point outside ASCII has a one-letter ASCII case
    form. *)
Definition case_changed (c c' : N) : Prop :=
  same_letter c c' ∨
  (c = 0x131%N ∧ c' = 0x49%N) ∨ (c = 0x17F%N ∧ c' = 0x53%N) ∨
  (c = 0x212A%N ∧ c' = 0x6B%N).

#[export] Instance case_changed_dec (c c' : N) : Decision (case_changed c c').
Proof. unfold case_changed. apply _. Defined.

(** ** The vocabulary of further properties of the converters *)

(** The ASCII digit character of value [v]. *)
Definition digit_char (v : Z) : N := (0x30 + Z.to_N v)%N.

(** The digit characters of the recognised characters of [s], in reading
    order. *)
Definition digits_of (s : str) : str :=
  omap (λ d, digit_char <$> classify d) s.


(** The value of an English word: its table value, and 0 for any other
    word. *)
Definition en_value (word : str) : Z :=
  match EN_NUM !! word with
  | Some v => v
  | None => default 0 (EN_UNIT !! word)
  end.

(** An English word below the multipliers: a word of [EN_NUM], a tens word
    or the conjunction. *)
Definition en_small (word : str) : Prop :=
  is_Some (EN_NUM !! word) ∨
  (∃ v, EN_UNIT !! word = Some v ∧ v < 100) ∨
  word = EN_AND.

(** The sum of a list of integers. *)
Definition sumZ (l : list Z) : Z := foldr Z.add 0 l.

#[export] Instance en_small_dec (word : str) : Decision (en_small word).
Proof.
  unfold en_small. apply or_dec; [apply _|]. apply or_dec; [|apply _].
  destruct (EN_UNIT !! word) as [v|].
  - destruct (decide (v < 100)) as [Hv|Hv].
    + left. by exists v.
    + right. intros (v' & [= <-] & Hlt). by apply Hv.
  - right. by intros (v' & [=] & _).
Defined.

(** ** [delete_punctuation] *)

(** The characters of the literal of [PUNCTUATIONS], in the order of the
    source; the double quote and the line ends of the literal are written
    as code points. *)
Definition PUNCTUATIONS_literal : str := Eval vm_compute in
  u " :!),.:;?]}¢'" ++
  [0x22%N] ++
  u "、。〉》」』】〕〗〞︰︱︳﹐､﹒" ++
  [0x0A%N] ++
  u "﹔﹕﹖﹗﹚﹜﹞！），．：；？｜｝︴︶︸︺︼︾﹀﹂﹄﹏､～￠" ++
  [0x0A%N] ++
  u "々‖•·ˇˉ―--′’”([{£¥'" ++
  [0x22%N] ++
  u "‵〈《「『【〔〖（［｛￡￥〝︵︷︹︻" ++
  [0x0A%N] ++
  u "︽︿﹁﹃﹙﹛﹝（｛“‘-—_…".

(** Collection of punctuation marks (including spaces): the set of the
    one-character strings of the literal. *)
Definition PUNCTUATIONS : gset str :=
  list_to_set ((λ c, [c]) <$> PUNCTUATIONS_literal).

(** The argument of [delete_punctuation]: a text or a list of texts. *)
Inductive text : Type :=
  | Text (s : str)
  | TextList (l : list str).

(** Iterating a string yields its characters as one-character strings;
    those that are not in the set are joined again. The elements of a
    list are tested as they are. *)
Definition delete_punctuation (text_list : text) : text :=
  match text_list with
  | TextList l => TextList (filter (λ x, x ∉ PUNCTUATIONS) l)
  | Text s =>
    Text (mjoin (filter (λ x, x ∉ PUNCTUATIONS) ((λ c, [c]) <$> s)))
  end.

(** ** Praat's voiced and unvoiced segments *)

Module Praat.

(** The exceptions the segment readers can raise. *)
Inductive exception : Type :=
  | ValueError
  | IndexError.

Inductive result (A : Type) : Type :=
  | Value (a : A)
  | Raise (e : exception).
Arguments Value {A} a.
Arguments Raise {A} e.

#[global] Instance result_ret : MRet result := λ A a, Value a.
#[global] Instance result_bind : MBind result := λ A B f m,
  match m with
  | Value a => f a
  | Raise e => Raise e
  end.

Definition NEWLINE : N := 0x0A.
Definition TAB : N := 0x09.

(** [l[i]] for an index that is not negative. *)
Definition item {A} (l : list A) (i : nat) : result A :=
  match l !! i with
  | Some a => Value a
  | None => Raise IndexError
  end.

(** [l[i]] for any index: a negative one counts from the end. *)
Definition index {A} (l : list A) (i : Z) : result A :=
  if decide (0 ≤ i) then item l (Z.to_nat i)
  else if decide (0 ≤ Z.of_nat (length l) + i) then
    item l (Z.to_nat (Z.of_nat (length l) + i))
  else Raise IndexError.

(** The labels of a TextGrid file, ["V"] and ["U"] with their quotes. *)
Definition LABEL_V : str := [0x22; 0x56; 0x22]%N.
Definition LABEL_U : str := [0x22; 0x55; 0x22]%N.

Section vuv.

(** Python's [float] on a string: the number read, or nothing where it
    raises [ValueError]. *)
Context {F : Type}.
Variable float : str → option F.

Definition to_float (x : str) : result F :=
  match float x with
  | Some t => Value t
  | None => Raise ValueError
  end.

(** A segment [[tmin, tmax]]; the two lists of the result. *)
Definition segment : Type := F * F.
Definition segments : Type := list segment * list segment.

(** The body of the loop of [duration_from_vuvInfo], on one line. *)
Definition vuvInfo_body (text_line : str) (st : segments) : result segments :=
  let '(segments_voice, segments_unvoice) := st in
  let text_line := split_on TAB text_line in
  if decide (u "text" ∈ text_line) then Value st
  else
    x ← item text_line 0;
    tmin ← to_float x;
    text ← item text_line 1;
    y ← item text_line 2;
    tmax ← to_float y;
    if decide (text = u "V") then
      Value (segments_voice ++ [(tmin, tmax)], segments_unvoice)
    else if decide (text = u "U") then
      Value (segments_voice, segments_unvoice ++ [(tmin, tmax)])
    else Value st.

Fixpoint vuvInfo_for (lines : list str) (st : segments) : result segments :=
  match lines with
  | [] => Value st
  | text_line :: lines' =>
    st' ← vuvInfo_body text_line st; vuvInfo_for lines' st'
  end.

(** The lines the loop runs over: [vuv_info.strip('\n').split('\n')]. *)
Definition vuvInfo_lines (vuv_info : str) : list str :=
  split_on NEWLINE (strip_with (λ c, bool_decide (c = NEWLINE)) vuv_info).

Definition duration_from_vuvInfo (vuv_info : str) : result segments :=
  vuvInfo_for (vuvInfo_lines vuv_info) ([], []).

(** [[float(data_list[data_index - 2]), float(data_list[data_index - 1])]],
    evaluated from left to right. *)
Definition vuvTextGrid_times (data_list : list str) (data_index : nat)
    : result segment :=
  x ← index data_list (Z.of_nat data_index - 2);
  tmin ← to_float x;
  y ← index data_list (Z.of_nat data_index - 1);
  tmax ← to_float y;
  Value (tmin, tmax).

(** The body of the loop of [duration_from_vuvTextGrid]: the line is
    replaced in the list by its trimmed form before it is compared. *)
Definition vuvTextGrid_body (data_index : nat)
    (st : list str * segments) : result (list str * segments) :=
  let '(data_list, (segments_voice, segments_unvoice)) := st in
  line ← item data_list data_index;
  let data_list := <[data_index := strip line]> data_list in
  line ← item data_list data_index;
  if decide (line = LABEL_V) then
    seg ← vuvTextGrid_times data_list data_index;
    Value (data_list, (segments_voice ++ [seg], segments_unvoice))
  else if decide (line = LABEL_U) then
    seg ← vuvTextGrid_times data_list data_index;
    Value (data_list, (segments_voice, segments_unvoice ++ [seg]))
  else Value (data_list, (segments_voice, segments_unvoice)).

Fixpoint vuvTextGrid_for (indices : list nat) (st : list str * segments)
    : result (list str * segments) :=
  match indices with
  | [] => Value st
  | data_index :: indices' =>
    st' ← vuvTextGrid_body data_index st; vuvTextGrid_for indices' st'
  end.

(** [duration_from_vuvTextGrid] on the lines of its file, as [readlines]
    gives them. *)
Definition duration_from_vuvTextGrid (data_list : list str)
    : result segments :=
  st ← vuvTextGrid_for (seq 0 (length data_list))
         (data_list, (([], []) : segments));
  Value st.2.

End vuv.

End Praat.

(** The fields of a line; the lines that are read as a segment with a
    given label; the segment of a line: its first and third fields, read
    as numbers. *)
Definition vuv_fields (line : str) : list str := split_on Praat.TAB line.

Definition vuv_row (label : str) (line : str) : Prop :=
  (u "text" ∉ vuv_fields line) ∧ vuv_fields line !! 1%nat = Some label.

#[export] Instance vuv_row_dec label line : Decision (vuv_row label line).
Proof. unfold vuv_row. apply _. Defined.

Definition vuv_segment {F} (float : str → option F)
    (line : str) (seg : F * F) : Prop :=
  (vuv_fields line !! 0%nat) ≫= float = Some seg.1 ∧
  (vuv_fields line !! 2%nat) ≫= float = Some seg.2.

(** A reading of numbers for the examples: the digits of a string that,
    white space around them apart, has nothing else, and at least one. *)
Definition float_of_digits (x : str) : option str :=
  let x := strip x in
  if decide (x ≠ [] ∧ Forall is_ascii_digit x) then Some x else None.

(** A listing as Praat prints it: a header and two rows, the fields
    separated by tabs and every line ended by a line feed. *)
Definition vuv_listing : str := Eval vm_compute in
  join [Praat.NEWLINE]
    [join [Praat.TAB] [u "tmin"; u "text"; u "tmax"];
     join [Praat.TAB] [u "0"; u "V"; u "12"];
     join [Praat.TAB] [u "12"; u "U"; u "30"];
     []].

(** ** The helpers of the prediction service *)

(** Both helpers lower their text and look it up in a set of ASCII
    strings, which [lower] decides as Python does (see [lower_char]). *)
Definition ALLOWED_EXTENSIONS_items : list str :=
  Eval vm_compute in [u "wav"; u "flac"; u "aif"; u "aiff"; u "aifc"].
Definition ALLOWED_EXTENSIONS : gset str :=
  list_to_set ALLOWED_EXTENSIONS_items.

Definition DOT : N := 0x2E.

(** [and] does not evaluate its right operand when the left one is
    false. *)
Definition allowed_file (fname : str) : outcome bool :=
  if decide (DOT ∈ fname) then
    ext ← getitem (rsplit1 DOT fname) 1;
    Done (bool_decide (lower ext ∈ ALLOWED_EXTENSIONS))
  else Done false.

Definition label_text_positive : gset str :=
  list_to_set
    [u "1"; u "true"; u "dementia"; u "positive"; u "likely_dementia"].

Definition label_text (pred : str) : str :=
  let p := lower (strip pred) in
  if decide (p ∈ label_text_positive) then u "Likely Dementia"
  else u "Not Dementia".

(** A lower-case ASCII letter other than [k]. *)
Definition plain_letter (c : N) : Prop :=
  (0x61 ≤ c)%N ∧ (c ≤ 0x7A)%N ∧ c ≠ 0x6B%N.

#[export] Instance plain_letter_dec (c : N) : Decision (plain_letter c).
Proof. unfold plain_letter. apply _. Defined.

(** A line of a TextGrid file that is not a label once trimmed. *)
Definition no_label (line : str) : Prop :=
  strip line ≠ Praat.LABEL_V ∧ strip line ≠ Praat.LABEL_U.

#[export] Instance no_label_dec (line : str) : Decision (no_label line).
Proof. unfold no_label. apply _. Defined.

(** The lines of a TextGrid file with one voiced interval, as [readlines]
    gives them. *)
Definition textgrid_lines : list str := Eval vm_compute in
  (λ line, line ++ [Praat.NEWLINE]) <$>
    [u "intervals [1]:"; u "0"; u "12"; Praat.LABEL_V].

(** ** The runtime on small inputs *)

Example runtime_examples :
  u "十" = [0x5341%N] ∧
  u "and" = [0x61; 0x6E; 0x64]%N ∧
  split (u "  two thousand   five ") = [u "two"; u "thousand"; u "five"] ∧
  split [0x3000; 0x31; 0x09; 0x32; 0x0A]%N = [[0x31]; [0x32]]%N ∧
  lower (u "Twenty-THREE") = u "twenty-three" ∧
  replace HYPHEN SPACE (u "twenty-three") = u "twenty three" ∧
  join [SPACE] [u "one"; u "two"] = u "one two" ∧
  join [SPACE] [u "one"] = u "one" ∧
  int_digit 0x37 = Some 7 ∧ int_digit 0xFF13 = Some 3 ∧
  int_digit 0x663 = Some 3 ∧ int_digit 0xB2 = None ∧
  int_digit 0x5343 = None ∧
  str_of_int 0 = u "0" ∧ str_of_int 9 = u "9" ∧
  log10_exact 10 = 1 ∧ log10_exact 100 = 2 ∧ log10_exact 10000 = 4.
Proof. vm_compute. repeat split. Qed.

(** ** The converters on the phrases of the source's comments *)

(** The fixup rule moves the units digit ("一百三"), a scale word before a
    larger one is bare ("百十"), and two adjacent scale words are
    multiplied ("十百"). *)
Example cn2an_examples :
  cn2an log10_exact (u "一百三") = Done (VStr (u "130")) ∧
  cn2an log10_exact (u "二百十") = Done (VStr (u "210")) ∧
  cn2an log10_exact (u "百十") = Done (VStr (u "110")) ∧
  cn2an log10_exact (u "十百") = Done (VStr (u "1000")) ∧
  cn2an log10_exact (u "a1b2") = Done (VStr (u "12")) ∧
  cn2an log10_exact (u "abc") = Done (VInt (-1)).
Proof. vm_compute. repeat split. Qed.

Example en2an_examples :
  en2an (u "one hundred twenty-three") = 123 ∧
  en2an (u "two thousand five hundred forty-six") = 2546 ∧
  en2an (u "nineteen") = 19 ∧
  en2an (u "fifty thousand two hundred one") = 50201 ∧
  en2an (u "one hundred") = 100 ∧
  en2an (u "thousand") = 1000.
Proof. vm_compute. repeat split. Qed.

(** The Arabic conjunction is written attached to the next word, so the
    phrases of the source's comments that hold one are not recognised; and
    a multiplier word that ends the phrase is read by the two-word test,
    which adds it to the group. *)
Example ar2an_examples :
  ar2an (u "واحد") = Done 1 ∧
  ar2an (u "عشرون") = Done 20 ∧
  ar2an (u "مائة") = Done 100 ∧
  ar2an (u "أحد عشر") = Done 11 ∧
  ar2an (u "مائة وثلاثة وعشرون") = Done (-1) ∧
  ar2an (u "ألفان وخمسمائة") = Done (-1) ∧
  ar2an (u "ثلاثة ألف واحد") = Done 3001 ∧
  ar2an (u "ثلاثة ألف") = Done 1003.
Proof. vm_compute. repeat split. Qed.

(** ** Facts about the runtime and the tables *)

Lemma getitem_Done {A} (l : list A) (i : nat) (x : A) :
  l !! i = Some x → getitem l i = Done x.
Proof. unfold getitem. by intros ->. Qed.

Lemma setitem_Done {A} (l : list A) (i : nat) (x : A) :
  (i < length l)%nat → setitem l i x = Done (<[i:=x]> l).
Proof. unfold setitem. intros H. by rewrite decide_True. Qed.

(** A lookup in a table built from its items finds one of the items. *)
Lemma table_lookup (items : list (str * Z)) (k : str) (v : Z) :
  (list_to_map items : gmap str Z) !! k = Some v → (k, v) ∈ items.
Proof. apply elem_of_list_to_map_2. Qed.

Lemma table_lookup_None (items : list (str * Z)) (k : str) :
  k ∉ items.*1 → (list_to_map items : gmap str Z) !! k = None.
Proof. apply not_elem_of_list_to_map_1. Qed.

(** The tables are closed terms: they are looked up by evaluation on closed
    inputs and through [table_lookup] otherwise, never by [simpl]. *)
#[global] Opaque CN_NUM CN_UNIT EN_NUM EN_UNIT AR_NUM.
Arguments en_body : simpl never.
Arguments ar_body : simpl never.

(** Case analysis on the item found by a lookup in one of the tables. *)
Ltac table_cases H :=
  first [ apply (table_lookup CN_NUM_items) in H
        | apply (table_lookup CN_UNIT_items) in H
        | apply (table_lookup EN_NUM_items) in H
        | apply (table_lookup EN_UNIT_items) in H
        | apply (table_lookup AR_NUM_items) in H ];
  repeat (apply elem_of_cons in H as [H | H];
          [injection H as -> -> |]);
  [.. | by apply elem_of_nil in H].

(** The keys of each dictionary literal are distinct, so building the map
    from the items in order loses none of them. *)
Lemma tables_NoDup :
  NoDup CN_NUM_items.*1 ∧ NoDup CN_UNIT_items.*1 ∧ NoDup EN_NUM_items.*1 ∧
  NoDup EN_UNIT_items.*1 ∧ NoDup AR_NUM_items.*1.
Proof. repeat apply conj; apply (bool_decide_unpack _); by vm_compute. Qed.

Lemma CN_NUM_digit (k : str) (v : Z) : CN_NUM !! k = Some v → 0 ≤ v ≤ 9.
Proof. intros H. table_cases H; lia. Qed.

Lemma CN_UNIT_pos (k : str) (v : Z) : CN_UNIT !! k = Some v → 9 < v.
Proof. intros H. table_cases H; lia. Qed.

Lemma int_digit_digit (d : N) (v : Z) : int_digit d = Some v → 0 ≤ v ≤ 9.
Proof.
  unfold int_digit. destruct (list_find _ _) as [[i z]|] eqn:E; [|done].
  apply list_find_Some in E as (_ & [? ?] & _). intros [= <-]. lia.
Qed.

Lemma classify_nonneg (d : N) (v : Z) : classify d = Some v → 0 ≤ v.
Proof.
  unfold classify. destruct (CN_NUM !! [d]) eqn:E1.
  { intros [= <-]. apply CN_NUM_digit in E1. lia. }
  destruct (CN_UNIT !! [d]) eqn:E2.
  { intros [= <-]. apply CN_UNIT_pos in E2. lia. }
  intros H%int_digit_digit. lia.
Qed.

(** The first loop appends, in the order of the scan, the number of every
    character that has one. *)
Lemma tokenise_body_foldl (l : str) (tmp : list Z) :
  foldl tokenise_body tmp l = tmp ++ omap classify l.
Proof.
  revert tmp. induction l as [|d l IH]; intros tmp; simpl.
  - by rewrite app_nil_r.
  - rewrite IH. unfold tokenise_body. destruct (classify d); simpl.
    + by rewrite <- app_assoc.
    + done.
Qed.

Lemma tokenise_omap (s : str) : tokenise s = omap classify (reverse s).
Proof. unfold tokenise. by rewrite tokenise_body_foldl. Qed.

Lemma tokenise_nonneg (s : str) : Forall (λ t, 0 ≤ t) (tokenise s).
Proof.
  rewrite tokenise_omap. apply Forall_forall. intros v Hv.
  apply list_elem_of_omap in Hv as (d & _ & Hd). by eapply classify_nonneg.
Qed.

Lemma tokenise_nil (s : str) :
  tokenise s = [] ↔ Forall (λ d, classify d = None) s.
Proof.
  rewrite tokenise_omap. rewrite <- (Forall_reverse _ s).
  generalize (reverse s). intros l. induction l as [|d l IH]; simpl.
  - split; [constructor | done].
  - destruct (classify d) eqn:E.
    + split; [done | intros H; inversion H; congruence].
    + rewrite IH. split; [by constructor | by inversion 1].
Qed.


(** [log10_exact] is the exponent on every power of ten. *)
Lemma log10_from_pow10 (k : nat) :
  ∀ fuel : nat,
  (k < fuel)%nat → log10_from fuel (10 ^ Z.of_nat k) = Z.of_nat k.
Proof.
  induction k as [|k IH]; intros [|fuel] Hfuel; try lia.
  - done.
  - cbn [log10_from].
    rewrite Nat2Z.inj_succ, Z.pow_succ_r by lia.
    assert (0 < 10 ^ Z.of_nat k) by (apply Z.pow_pos_nonneg; lia).
    destruct (Z.leb_spec (10 * 10 ^ Z.of_nat k) 1); [lia|].
    replace ((10 * 10 ^ Z.of_nat k + 9) / 10) with (10 ^ Z.of_nat k)
      by (apply Z.div_unique with (r := 9); lia).
    rewrite IH by lia. lia.
Qed.

Lemma log10_exact_pow10 (k : nat) :
  log10_exact (10 ^ Z.of_nat k) = Z.of_nat k.
Proof.
  unfold log10_exact. apply log10_from_pow10.
  assert (Z.of_nat k ≤ Z.log2 (10 ^ Z.of_nat k)).
  { rewrite <- (Z.log2_pow2 (Z.of_nat k)) at 1 by lia.
    apply Z.log2_le_mono. apply Z.pow_le_mono_l. lia. }
  lia.
Qed.

(** ** The stages of [cn2an] *)

Section normalise.
Variable tmp_len : nat.

(** One turn of the second loop: it reads inside [tmp], keeps the
    numbers non-negative, and the last turn appends a digit. *)
Lemma normalise_body_ok (tmp tmp2 : list Z) (i n : nat) :
  (i + S n = tmp_len)%nat → length tmp = tmp_len →
  Forall (λ t, 0 ≤ t) tmp → Forall (λ t, 0 ≤ t) tmp2 →
  ∃ tmp' tmp2',
    normalise_body tmp_len (tmp, tmp2) i = Done (tmp', tmp2') ∧
    length tmp' = tmp_len ∧
    Forall (λ t, 0 ≤ t) tmp' ∧ Forall (λ t, 0 ≤ t) tmp2' ∧
    (n = 0%nat → ends_with_digit tmp2').
Proof.
  intros Hi Hlen Htmp Htmp2. unfold normalise_body.
  destruct (lookup_lt_is_Some_2 tmp i) as [ti Hti]; [lia|].
  rewrite (getitem_Done _ _ _ Hti). simpl.
  assert (0 ≤ ti) as Hti0 by (by eapply (Forall_lookup_1 _ tmp)).
  destruct (decide (ti > 9)) as [Hbig|Hsmall].
  - destruct (decide (i = tmp_len - 1)%nat) as [Hlast|Hmore].
    + exists tmp, (tmp2 ++ [ti; 1]). repeat split; try done.
      * apply Forall_app. split; [done|]. repeat constructor; lia.
      * intros _. exists 1. split; [|unfold digit; lia].
        by rewrite last_app.
    + destruct (lookup_lt_is_Some_2 tmp (i + 1)) as [tn Htn]; [lia|].
      rewrite (getitem_Done _ _ _ Htn). simpl.
      assert (0 ≤ tn) as Htn0 by (by eapply (Forall_lookup_1 _ tmp)).
      destruct (decide (tn > ti)).
      { exists tmp, (tmp2 ++ [ti; 1]). repeat split; try done; [|lia].
        apply Forall_app. split; [done|]. repeat constructor; lia. }
      destruct (decide (tn > 9)).
      { rewrite setitem_Done by lia. simpl.
        exists (<[(i + 1)%nat:=tn * ti]> tmp), tmp2.
        repeat split; try done; [by rewrite length_insert| |lia].
        apply Forall_insert; [done|nia]. }
      exists tmp, (tmp2 ++ [ti]). repeat split; try done; [|lia].
      apply Forall_app. split; [done|]. repeat constructor; lia.
  - exists tmp, (tmp2 ++ [ti]). repeat split; try done.
    + apply Forall_app. split; [done|]. repeat constructor; lia.
    + intros _. exists ti. rewrite last_snoc. split; [done|].
      unfold digit. lia.
Qed.

(** The second loop from the index [i] on. *)
Lemma normalise_loop_ok (n : nat) :
  ∀ (i : nat) (tmp tmp2 : list Z),
  (i + n = tmp_len)%nat → length tmp = tmp_len →
  Forall (λ t, 0 ≤ t) tmp → Forall (λ t, 0 ≤ t) tmp2 →
  (n = 0%nat → ends_with_digit tmp2) →
  ∃ st,
    for_each (seq i n) (normalise_body tmp_len) (tmp, tmp2) = Done st ∧
    Forall (λ t, 0 ≤ t) st.2 ∧ ends_with_digit st.2.
Proof.
  induction n as [|n IH]; intros i tmp tmp2 Hi Hlen Htmp Htmp2 Hend.
  - exists (tmp, tmp2). simpl. auto.
  - destruct (normalise_body_ok tmp tmp2 i n)
      as (tmp' & tmp2' & Hbody & Hlen' & Htmp' & Htmp2' & Hend');
      [done..|].
    cbn [seq for_each]. rewrite Hbody. simpl.
    apply IH; [lia|done..].
Qed.
End normalise.

(** The second loop ends normally on a non-empty [tmp] of non-negative
    numbers, and [tmp2] ends with a digit. *)
Lemma normalise_ok (tmp : list Z) :
  tmp ≠ [] → Forall (λ t, 0 ≤ t) tmp →
  ∃ tmp2, normalise tmp = Done tmp2 ∧
          Forall (λ t, 0 ≤ t) tmp2 ∧ ends_with_digit tmp2.
Proof.
  intros Hne Htmp. unfold normalise.
  destruct (normalise_loop_ok (length tmp) (length tmp) 0%nat tmp [])
    as ([tmp' tmp2] & Hloop & H1 & H2); try done.
  { intros Hz. by destruct tmp. }
  rewrite Hloop. simpl. eauto.
Qed.

(** The padding loop ends within its bound and appends placeholders only. *)
Lemma pad_while_ok (w : Z) (fuel : nat) :
  ∀ (curW : Z) (sq : list Z),
  (Z.to_nat (w - curW) < fuel)%nat →
  ∃ k, pad_while fuel w (curW, sq) = Done (Z.max curW w, sq ++ replicate k (-1)).
Proof.
  induction fuel as [|fuel IH]; intros curW sq Hfuel; [lia|].
  simpl. destruct (decide (curW < w)) as [Hlt|Hge].
  - destruct (IH (curW + 1) (sq ++ [-1])) as [k Hk]; [lia|].
    exists (S k). rewrite Hk. f_equal. f_equal; [lia|].
    by rewrite <- app_assoc.
  - exists 0%nat. simpl. rewrite app_nil_r. do 2 f_equal. lia.
Qed.

Lemma Forall_slot_replicate (k : nat) : Forall slot (replicate k (-1)).
Proof. apply Forall_replicate. unfold slot. lia. Qed.

Section positional_facts.

Variable math_log10 : Z → Z.

(** One turn of the third loop: it ends normally, leaves digits and
    placeholders only, and a digit [t] becomes the last slot. *)
Lemma assemble_body_ok (curW : Z) (sq : list Z) (t : Z) :
  0 ≤ t → Forall slot sq →
  ∃ st, assemble_body math_log10 (curW, sq) t = Done st ∧
        Forall slot st.2 ∧ (t ≤ 9 → last st.2 = Some t).
Proof.
  intros Ht Hsq. unfold assemble_body.
  destruct (decide (t > 9)) as [Hbig|Hsmall].
  - destruct (pad_while_ok (math_log10 t) (S (Z.to_nat (math_log10 t - curW))) curW sq)
      as [k Hk]; [lia|].
    cbv zeta. rewrite Hk. eexists. split; [done|]. simpl. split; [|lia].
    apply Forall_app. split; [done | apply Forall_slot_replicate].
  - eexists. split; [done|]. simpl. split.
    + apply Forall_app. split; [done|].
      repeat constructor; unfold slot; lia.
    + intros _. by rewrite last_snoc.
Qed.

(** The third loop ends normally; every slot is a digit or the
    placeholder, and the last slot is a digit when [tmp2] ends with one. *)
Lemma assemble_loop_ok (tmp2 : list Z) :
  ∀ (curW : Z) (sq : list Z),
  Forall (λ t, 0 ≤ t) tmp2 → Forall slot sq →
  (tmp2 = [] → ends_with_digit sq) →
  (tmp2 ≠ [] → ends_with_digit tmp2) →
  ∃ st, for_each tmp2 (assemble_body math_log10) (curW, sq) = Done st ∧
        Forall slot st.2 ∧ ends_with_digit st.2.
Proof.
  induction tmp2 as [|t tmp2 IH]; intros curW sq Hpos Hsq Hnil Hcons.
  - exists (curW, sq). simpl. auto.
  - apply Forall_cons in Hpos as [Ht Hpos].
    destruct (Hcons ltac:(done)) as (d & Hlast & Hd).
    destruct (assemble_body_ok curW sq t Ht Hsq)
      as ([curW' sq'] & Hbody & Hsq' & Hdig).
    cbn [for_each]. rewrite Hbody. simpl. simpl in Hsq', Hdig.
    apply IH; try done.
    + intros ->. simpl in Hlast. injection Hlast as <-.
      exists t. split; [|done]. apply Hdig. unfold digit in Hd. lia.
    + intros Hne. exists d. split; [|done].
      destruct tmp2; [done|]. by rewrite last_cons_cons in Hlast.
Qed.

Lemma assemble_ok (tmp2 : list Z) :
  Forall (λ t, 0 ≤ t) tmp2 → ends_with_digit tmp2 →
  ∃ sq, assemble math_log10 tmp2 = Done sq ∧ Forall slot sq ∧ ends_with_digit sq.
Proof.
  intros Hpos Hend. unfold assemble.
  destruct (assemble_loop_ok tmp2 0 []) as ([curW sq] & Hloop & H1 & H2);
    try done.
  { intros ->. by destruct Hend as (d & Hd & _). }
  rewrite Hloop. simpl. eauto.
Qed.

(** The forward scan stops inside the list, on the first slot at or after
    [p] that is not the placeholder, when there is one. *)
Lemma skip_empty_ok (sq : list Z) (fuel : nat) :
  ∀ (p : nat),
  (length sq - p < fuel)%nat →
  (∃ q d, (p ≤ q)%nat ∧ sq !! q = Some d ∧ d ≠ -1) →
  ∃ p' d, skip_empty fuel sq p = Done p' ∧
          (p ≤ p' < length sq)%nat ∧ sq !! p' = Some d ∧ d ≠ -1 ∧
          ∀ j, (p ≤ j < p')%nat → sq !! j = Some (-1).
Proof.
  induction fuel as [|fuel IH]; intros p Hfuel (q & d & Hpq & Hq & Hd); [lia|].
  pose proof (lookup_lt_Some _ _ _ Hq) as Hqlen.
  simpl. rewrite decide_True by lia.
  destruct (lookup_lt_is_Some_2 sq p) as [sp Hsp]; [lia|].
  rewrite (getitem_Done _ _ _ Hsp). simpl.
  destruct (decide (sp = -1)) as [->|Hsp1].
  - assert (p ≠ q) as Hne by (intros ->; congruence).
    destruct (IH (p + 1)%nat) as (p' & d' & Hrun & Hrange & Hp' & Hd' & Hbetween).
    { lia. }
    { exists q, d. split; [lia|done]. }
    exists p', d'. repeat split; try done; try lia.
    intros j Hj. destruct (decide (j = p)) as [->|]; [done|].
    apply Hbetween. lia.
  - exists p, sp. repeat split; try done; lia.
Qed.

Lemma ends_with_digit_lookup (sq : list Z) :
  ends_with_digit sq →
  ∃ d, sq !! (length sq - 1)%nat = Some d ∧ digit d ∧ (0 < length sq)%nat.
Proof.
  intros (d & Hlast & Hd). exists d. rewrite last_lookup in Hlast.
  replace (length sq - 1)%nat with (pred (length sq)) by lia.
  split; [done|]. split; [done|].
  apply lookup_lt_Some in Hlast. lia.
Qed.

(** The scan of the fixup rule, started at index 1 of a sequence of two or
    more slots that ends with a digit, stops on a filled slot inside it. *)
Lemma fixup_scan_ok (sq : list Z) :
  ends_with_digit sq → (1 < length sq)%nat →
  ∃ p d, skip_empty (S (length sq)) sq 1 = Done p ∧
         (1 ≤ p < length sq)%nat ∧ sq !! p = Some d ∧ d ≠ -1.
Proof.
  intros (d & Hd & Hdig & _)%ends_with_digit_lookup Hlen.
  destruct (skip_empty_ok sq (S (length sq)) 1)
    as (p & d' & Hrun & Hrange & Hp & Hd' & _); [lia| |].
  - exists (length sq - 1)%nat, d. split; [lia|]. split; [done|].
    unfold digit in Hdig. lia.
  - by exists p, d'.
Qed.

(** The fixup rule ends normally on a sequence of slots that ends with a
    digit, and leaves a sequence of slots of the same length. *)
Lemma fixup_ok (sq : list Z) :
  Forall slot sq → ends_with_digit sq →
  ∃ sq', fixup sq = Done sq' ∧ Forall slot sq' ∧ length sq' = length sq.
Proof.
  intros Hsq Hend.
  destruct (ends_with_digit_lookup sq Hend) as (dl & _ & _ & Hpos).
  destruct (lookup_lt_is_Some_2 sq 0) as [s0 Hs0]; [lia|].
  assert (slot s0) as Hslot0 by (by eapply (Forall_lookup_1 _ sq)).
  unfold fixup.
  set (move := skip_empty (S (length sq)) sq 1 ≫= _).
  assert ((1 < length sq)%nat →
          ∃ sq', move = Done sq' ∧ Forall slot sq' ∧ length sq' = length sq)
    as Hmove.
  { intros Hlen. subst move.
    destruct (fixup_scan_ok sq Hend Hlen) as (p & d & -> & Hp & _).
    simpl. rewrite (getitem_Done _ _ _ Hs0). simpl.
    rewrite setitem_Done by lia. simpl.
    rewrite setitem_Done by (rewrite length_insert; lia).
    eexists. split; [done|]. rewrite !length_insert. split; [|done].
    apply Forall_insert; [by apply Forall_insert|]. unfold slot. lia. }
  clearbody move.
  rewrite (getitem_Done _ _ _ Hs0). simpl.
  destruct (decide (s0 > 0)); simpl; [|by eauto].
  destruct (decide (1 < length sq)%nat) as [Hlen|]; simpl; [|by eauto].
  destruct (lookup_lt_is_Some_2 sq 1) as [s1 Hs1]; [lia|].
  rewrite (getitem_Done _ _ _ Hs1). simpl.
  destruct (bool_decide (s1 = -1)); by eauto.
Qed.

(** [str] of a digit is the one ASCII digit character. *)
Lemma str_of_int_digit (d : Z) :
  digit d → str_of_int d = [(0x30 + Z.to_N d)%N].
Proof.
  unfold digit. intros Hd.
  assert (d = 0 ∨ d = 1 ∨ d = 2 ∨ d = 3 ∨ d = 4 ∨ d = 5 ∨ d = 6 ∨ d = 7
          ∨ d = 8 ∨ d = 9) as Hcases by lia.
  repeat (destruct Hcases as [-> | Hcases]; [by vm_compute|]).
  subst d. by vm_compute.
Qed.

(** Rendering slots gives ASCII digits only. *)
Lemma render_digits (sq : list Z) :
  Forall slot sq → Forall is_ascii_digit (render sq).
Proof.
  intros Hsq. unfold render. apply Forall_join, Forall_fmap.
  apply Forall_reverse. eapply Forall_impl; [exact Hsq|].
  intros n Hn. simpl. unfold slot in Hn.
  destruct (decide (n >= 0)).
  - rewrite str_of_int_digit by (unfold digit; lia).
    repeat constructor; unfold is_ascii_digit; lia.
  - rewrite str_of_int_digit by (unfold digit; lia).
    repeat constructor; unfold is_ascii_digit; lia.
Qed.

(** The whole of [cn2an] on an input with at least one recognised
    character: no index is out of range and no loop bound is reached. *)
Lemma cn2an_stages (s : str) :
  tokenise s ≠ [] →
  ∃ tmp2 sq sq',
    normalise (tokenise s) = Done tmp2 ∧
    assemble math_log10 tmp2 = Done sq ∧ Forall slot sq ∧ ends_with_digit sq ∧
    fixup sq = Done sq' ∧ Forall slot sq' ∧
    cn2an math_log10 s = Done (VStr (render sq')).
Proof.
  intros Hne.
  destruct (normalise_ok (tokenise s) Hne (tokenise_nonneg s))
    as (tmp2 & Hnorm & Hpos & Hend).
  destruct (assemble_ok tmp2 Hpos Hend) as (sq & Hasm & Hsq & Hend').
  destruct (fixup_ok sq Hsq Hend') as (sq' & Hfix & Hsq' & _).
  exists tmp2, sq, sq'. repeat split; try done.
  unfold cn2an. rewrite decide_False by done.
  rewrite Hnorm. simpl. rewrite Hasm. simpl. by rewrite Hfix.
Qed.

(** [cn2an] never returns an integer when [tmp] is not empty. *)
Lemma cn2an_tokens_VStr (s : str) :
  tokenise s ≠ [] → ∃ out, cn2an math_log10 s = Done (VStr out).
Proof.
  intros (tmp2 & sq & sq' & _ & _ & _ & _ & _ & _ & H)%cn2an_stages. eauto.
Qed.

(** [cn2an] reads [math.log10] at the scale tokens of [tmp2] only. *)
Lemma for_each_ext {A S} (xs : list A) (body1 body2 : S → A → outcome S) :
  Forall (λ x, ∀ s, body1 s x = body2 s x) xs →
  ∀ s, for_each xs body1 s = for_each xs body2 s.
Proof.
  induction 1 as [|x xs Hx Hxs IH]; intros s; simpl; [done|].
  rewrite Hx. destruct (body2 s x); simpl; auto.
Qed.

Lemma cn2an_log10_ext (f g : Z → Z) (s : str) (tmp2 : list Z) :
  normalise (tokenise s) = Done tmp2 →
  Forall (λ t, t > 9 → f t = g t) tmp2 →
  cn2an f s = cn2an g s.
Proof.
  intros Hnorm Hfg. unfold cn2an.
  destruct (decide (tokenise s = [])); [done|].
  rewrite Hnorm. simpl.
  replace (assemble f tmp2) with (assemble g tmp2); [done|].
  unfold assemble. f_equal. symmetry. apply for_each_ext.
  eapply Forall_impl; [exact Hfg|].
  intros t Ht [curW sq]. unfold assemble_body.
  destruct (decide (t > 9)); [|done]. by rewrite Ht.
Qed.

End positional_facts.

Lemma recognised_classify (d : N) : recognised d ↔ is_Some (classify d).
Proof.
  unfold recognised, classify.
  destruct (CN_NUM !! [d]) as [v|]; [by split; eauto|].
  destruct (CN_UNIT !! [d]) as [v|]; [by split; eauto|].
  split; [|by auto]. intros [H|[H|H]]; try done; by destruct H.
Qed.

Lemma not_recognised_classify (d : N) : ¬ recognised d ↔ classify d = None.
Proof. by rewrite recognised_classify, <- eq_None_not_Some. Qed.

(** Characters that are not recognised leave no trace in [tmp]. *)
Lemma tokenise_filter (s : str) : tokenise (filter recognised s) = tokenise s.
Proof.
  rewrite !tokenise_omap, <- filter_reverse.
  induction (reverse s) as [|d l IH]; [done|].
  rewrite filter_cons. destruct (decide (recognised d)) as [Hd|Hd]; csimpl.
  - by rewrite IH.
  - apply not_recognised_classify in Hd. by rewrite Hd.
Qed.

(** ** Facts about [en2an] *)

Lemma EN_NUM_nonneg (k : str) (v : Z) : EN_NUM !! k = Some v → 0 ≤ v.
Proof. intros H. table_cases H; lia. Qed.

Lemma EN_UNIT_nonneg (k : str) (v : Z) : EN_UNIT !! k = Some v → 0 ≤ v.
Proof. intros H. table_cases H; lia. Qed.

(** No word is a key of both English tables. *)
Lemma EN_UNIT_not_NUM (k : str) (v : Z) :
  EN_UNIT !! k = Some v → EN_NUM !! k = None.
Proof. intros H. table_cases H; by vm_compute. Qed.

(** The English loop body returns nothing but the sentinel, and does so
    exactly on an unknown word. *)
Lemma en_body_Return (word : str) (st : Z * Z) (v : Z) :
  en_body word st = Return v → v = -1 ∧ en_unknown word.
Proof.
  destruct st as [cur res]. unfold en_body, en_unknown.
  destruct (EN_NUM !! word); [done|].
  destruct (EN_UNIT !! word).
  { by destruct (decide (_ >= 100)). }
  destruct (decide (word = EN_AND)); [done|]. by intros [= <-].
Qed.

Lemma en_body_unknown (word : str) (st : Z * Z) :
  en_unknown word → en_body word st = Return (-1).
Proof.
  destruct st as [cur res]. intros (H1 & H2 & Hne). unfold en_body.
  by rewrite H1, H2, decide_False.
Qed.

(** The English loop body keeps both counters non-negative. *)
Lemma en_body_nonneg (word : str) (cur res cur' res' : Z) :
  0 ≤ cur → 0 ≤ res →
  en_body word (cur, res) = Continue (cur', res') → 0 ≤ cur' ∧ 0 ≤ res'.
Proof.
  intros Hcur Hres. unfold en_body.
  destruct (EN_NUM !! word) as [v|] eqn:E1.
  { apply EN_NUM_nonneg in E1. intros [= <- <-]. lia. }
  destruct (EN_UNIT !! word) as [v|] eqn:E2.
  { apply EN_UNIT_nonneg in E2.
    destruct (decide (v >= 100)); [|intros [= <- <-]; lia].
    destruct (decide (cur = 0)); intros [= <- <-]; nia. }
  destruct (decide (word = EN_AND)); [|done]. intros [= <- <-]. lia.
Qed.

(** An unknown word anywhere makes the loop return the sentinel, whatever
    had been accumulated. *)
Lemma en_for_unknown (words : list str) :
  Exists en_unknown words → ∀ st, en_for words st = -1.
Proof.
  induction 1 as [word words Hunk | word words Hex IH]; intros st; simpl.
  - by rewrite en_body_unknown.
  - destruct (en_body word st) as [st'|v] eqn:E; [apply IH|].
    by apply en_body_Return in E as [-> _].
Qed.

(** Without an unknown word the loop returns a non-negative number. *)
Lemma en_for_range (words : list str) :
  ∀ cur res, 0 ≤ cur → 0 ≤ res →
  en_for words (cur, res) = -1 ∨ 0 ≤ en_for words (cur, res).
Proof.
  induction words as [|word words IH]; intros cur res Hcur Hres; simpl.
  - right. lia.
  - destruct (en_body word (cur, res)) as [[cur' res']|v] eqn:E.
    + apply en_body_nonneg in E as [? ?]; [|done..]. by apply IH.
    + left. by apply en_body_Return in E as [-> _].
Qed.

(** A phrase of white space only has no word. *)
Lemma split_from_spaces (s : str) :
  Forall (λ c, isspace c = true) s → split_from [] s = [].
Proof.
  induction 1 as [|c s Hc Hs IH]; simpl; [done|]. by rewrite Hc.
Qed.

(** Lower-casing and hyphen replacement act character by character. *)
Lemma lower_app (a b : str) : lower (a ++ b) = lower a ++ lower b.
Proof. unfold lower. by rewrite fmap_app, join_app. Qed.

Lemma replace_app (old new : N) (a b : str) :
  replace old new (a ++ b) = replace old new a ++ replace old new b.
Proof. unfold replace. by rewrite fmap_app. Qed.

Lemma lower_char_same_letter (c c' : N) :
  same_letter c c' → lower_char c = lower_char c'.
Proof.
  unfold lower_char.
  intros [-> | [(H1 & H2 & ->) | (H1 & H2 & ->)]]; [done| |].
  - replace ((0x41 <=? c) && (c <=? 0x5A))%N with true
      by (symmetry; apply andb_true_iff; split; apply N.leb_le; lia).
    replace ((0x41 <=? c + 0x20) && (c + 0x20 <=? 0x5A))%N with false
      by (symmetry; apply andb_false_iff; right; apply N.leb_gt; lia).
    replace (c + 0x20 =? 0x130)%N with false
      by (symmetry; apply N.eqb_neq; lia).
    replace (c + 0x20 =? 0x212A)%N with false
      by (symmetry; apply N.eqb_neq; lia).
    done.
  - replace ((0x41 <=? c') && (c' <=? 0x5A))%N with true
      by (symmetry; apply andb_true_iff; split; apply N.leb_le; lia).
    replace ((0x41 <=? c' + 0x20) && (c' + 0x20 <=? 0x5A))%N with false
      by (symmetry; apply andb_false_iff; right; apply N.leb_gt; lia).
    replace (c' + 0x20 =? 0x130)%N with false
      by (symmetry; apply N.eqb_neq; lia).
    replace (c' + 0x20 =? 0x212A)%N with false
      by (symmetry; apply N.eqb_neq; lia).
    done.
Qed.

Lemma lower_same_letter (s s' : str) :
  Forall2 same_letter s s' → lower s = lower s'.
Proof.
  intros H. unfold lower. f_equal.
  induction H as [|c c' s s' Hc Hs IH]; [done|].
  rewrite !fmap_cons. f_equal; [by apply lower_char_same_letter | done].
Qed.

(** White space is left as it is by lower-casing and is no hyphen. *)
Lemma isspace_lower_char (c : N) :
  isspace c = true → lower_char c = [c] ∧ c ≠ HYPHEN.
Proof.
  unfold isspace, HYPHEN. intros H.
  rewrite !orb_true_iff, !andb_true_iff, !N.leb_le, !N.eqb_eq in H.
  split; [|lia]. unfold lower_char.
  destruct (N.leb_spec 0x41 c), (N.leb_spec c 0x5A); simpl; try lia;
    (destruct (N.eqb_spec c 0x130); [lia|]);
    (destruct (N.eqb_spec c 0x212A); [lia|]); done.
Qed.

Lemma en_words_spaces (s : str) :
  Forall (λ c, isspace c = true) s → en_words s = [].
Proof.
  intros Hs. unfold en_words.
  replace (replace HYPHEN SPACE (lower s)) with s;
    [by apply split_from_spaces|].
  unfold lower, replace.
  induction Hs as [|c s Hc Hs IH]; [done|].
  apply isspace_lower_char in Hc as [Hlow Hne].
  csimpl. rewrite Hlow. csimpl.
  rewrite decide_False by done. by f_equal.
Qed.

(** ** Facts about [ar2an] *)

Lemma AR_NUM_nonneg (k : str) (v : Z) : AR_NUM !! k = Some v → 0 ≤ v.
Proof. intros H. table_cases H; lia. Qed.

(** The Arabic loop body returns nothing but the sentinel, and does so
    exactly when neither the two-word phrase nor the word is recognised. *)
Lemma ar_body_Return (words : list str) (word : str) (st : nat * Z * Z)
    (v : Z) :
  ar_body words word st = Return v →
  v = -1 ∧ AR_NUM !! join [SPACE] (take 2 (drop st.1.1 words)) = None ∧
  ar_unknown word.
Proof.
  destruct st as [[i cur] res]. unfold ar_body, ar_unknown. simpl.
  destruct (AR_NUM !! join _ _); [done|].
  destruct (AR_NUM !! word).
  { by destruct (decide (_ >= 1000)). }
  destruct (decide (word = AR_CONJUNCTION)); [done|]. by intros [= <-].
Qed.

(** When the body goes on, the cursor moves forward by one or two words
    and the counters stay non-negative. *)
Lemma ar_body_Continue (words : list str) (word : str) (i i' : nat)
    (cur res cur' res' : Z) :
  ar_body words word (i, cur, res) = Continue (i', cur', res') →
  (i < i' ≤ i + 2)%nat ∧ (0 ≤ cur → 0 ≤ res → 0 ≤ cur' ∧ 0 ≤ res').
Proof.
  unfold ar_body.
  destruct (AR_NUM !! join _ _) as [v|] eqn:E1.
  { apply AR_NUM_nonneg in E1. intros [= <- <- <-]. lia. }
  destruct (AR_NUM !! word) as [v|] eqn:E2.
  { apply AR_NUM_nonneg in E2.
    destruct (decide (v >= 1000)); [|intros [= <- <- <-]; lia].
    destruct (decide (cur = 0)); intros [= <- <- <-]; split; (lia || nia). }
  destruct (decide (word = AR_CONJUNCTION)); [|done].
  intros [= <- <- <-]. lia.
Qed.

(** The Arabic loop ends within its bound, on the sentinel or on a
    non-negative number. *)
Lemma ar_while_range (words : list str) (fuel : nat) :
  ∀ (i : nat) (cur res : Z),
  (length words - i < fuel)%nat → 0 ≤ cur → 0 ≤ res →
  ∃ n, ar_while fuel words (i, cur, res) = Done n ∧ (n = -1 ∨ 0 ≤ n).
Proof.
  induction fuel as [|fuel IH]; intros i cur res Hfuel Hcur Hres; [lia|].
  cbn [ar_while fst snd].
  destruct (words !! i) as [word|] eqn:Hw.
  - apply lookup_lt_Some in Hw as Hlt.
    destruct (ar_body words word (i, cur, res)) as [[[i' cur'] res']|v] eqn:E.
    + apply ar_body_Continue in E as [Hi Hpos].
      destruct Hpos as [? ?]; [done..|]. apply IH; [lia|done..].
    + apply ar_body_Return in E as (-> & _). eauto.
  - exists (res + cur). split; [done|]. right. lia.
Qed.

(** An unrecognised token anywhere makes the loop return the sentinel,
    whatever had been accumulated. *)
Lemma ar_while_unknown (words : list str) (fuel : nat) :
  ∀ (i : nat) (cur res : Z),
  (length words - i < fuel)%nat →
  Exists ar_unknown (ar_tokens (drop i words)) →
  ar_while fuel words (i, cur, res) = Done (-1).
Proof.
  induction fuel as [|fuel IH]; intros i cur res Hfuel Hex; [lia|].
  cbn [ar_while fst snd].
  destruct (words !! i) as [word|] eqn:Hw.
  2:{ apply lookup_ge_None_1 in Hw. rewrite drop_ge in Hex by done.
      apply Exists_nil in Hex as []. }
  apply lookup_lt_Some in Hw as Hlt. unfold ar_body.
  rewrite (drop_S _ _ _ Hw) in Hex. cbn [ar_tokens] in Hex.
  rewrite <- (drop_S _ _ _ Hw) in Hex.
  destruct (AR_NUM !! join _ _) as [v|] eqn:E1.
  - apply Exists_cons in Hex as [[Hnone _]|Hex]; [congruence|].
    destruct (words !! S i) as [word2|] eqn:Hw2.
    + rewrite (drop_S _ _ _ Hw2) in Hex.
      apply IH; [lia|]. by replace (i + 2)%nat with (S (S i)) by lia.
    + apply lookup_ge_None_1 in Hw2. rewrite drop_ge in Hex by done.
      apply Exists_nil in Hex as [].
  - apply Exists_cons in Hex as [[Hnone Hconj]|Hex].
    + by rewrite Hnone, decide_False.
    + assert (Exists ar_unknown (ar_tokens (drop (i + 1) words))) as Hex'
        by (by replace (i + 1)%nat with (S i) by lia).
      destruct (AR_NUM !! word) as [v|].
      * destruct (decide (v >= 1000)); apply IH; (lia || done).
      * destruct (decide (word = AR_CONJUNCTION)); [|done].
        apply IH; (lia || done).
Qed.

(** No word of value 100 or more starts a two-word phrase of the table. *)
Lemma AR_multiplier_no_phrase (word word2 : str) (v : Z) :
  AR_NUM !! word = Some v → 100 ≤ v →
  AR_NUM !! join [SPACE] [word; word2] = None.
Proof.
  intros H Hv. table_cases H; try lia;
    apply (table_lookup_None AR_NUM_items); intros Hin;
    unfold SPACE in Hin; cbn in Hin;
    repeat (apply elem_of_cons in Hin as [Hin|Hin]; [discriminate Hin|]);
    by apply elem_of_nil in Hin.
Qed.

(** The two words under the cursor when the cursor is not on the last
    word, and the one word when it is. *)
Lemma take_2_drop_inner (words : list str) (i : nat) (word : str) :
  words !! i = Some word → (S i < length words)%nat →
  ∃ word2, take 2 (drop i words) = [word; word2].
Proof.
  intros Hw Hlen.
  destruct (lookup_lt_is_Some_2 words (S i)) as [word2 Hw2]; [lia|].
  exists word2. by rewrite (drop_S _ _ _ Hw), (drop_S _ _ _ Hw2).
Qed.

Lemma take_2_drop_last (words : list str) (i : nat) (word : str) :
  words !! i = Some word → (S i = length words)%nat →
  take 2 (drop i words) = [word].
Proof.
  intros Hw Hlen. rewrite (drop_S _ _ _ Hw), drop_ge by lia. done.
Qed.


(** * The claims of the specification *)

(** C1. The source documents 1350005 as the value of "one million three
    hundred fifty thousand and five". The code returns 1050305: "hundred"
    is itself a multiplier word, so "three hundred" is folded into the
    result as 300 before "fifty thousand" is read, and "thousand" then
    multiplies the group 50 only. The conjunction is skipped: the phrase
    without "and" has the same value. *)
Theorem en2an_million_phrase :
  en2an (u "one million three hundred fifty thousand and five") = 1050305 ∧
  en2an (u "one million three hundred fifty thousand five") = 1050305.
Proof. vm_compute. repeat split. Qed.

(** C2, as the specification states it, fails on the Arabic variant: the
    word for one hundred has a table value of at least 100, yet after
    "three" it is added to the group (3 + 100) and not multiplied, so
    "three hundred one" is 104 and not 301. *)
Lemma ar2an_hundred_is_not_a_multiplier :
  ar2an (u "ثلاثة مائة واحد") = Done 104 ∧
  ¬ (∀ (words : list str) (i : nat) (word : str) (v : Z),
       words !! i = Some word → AR_NUM !! word = Some v → 100 ≤ v →
       ar_multiplier_rule words i word v).
Proof.
  split; [by vm_compute|]. intros Hrule.
  specialize (Hrule (split (u "ثلاثة مائة واحد")) 1%nat (u "مائة") 100).
  specialize (Hrule ltac:(by vm_compute) ltac:(by vm_compute) ltac:(lia) 3 0).
  vm_compute in Hrule. discriminate Hrule.
Qed.

(** C2, amended. In the English variant every word of [EN_UNIT] whose
    value is at least 100 is processed as a multiplier wherever it stands:
    a group total of 0 counts as 1, the group total times the value is
    added to the result, and the group total is reset to 0. In the Arabic
    variant the same holds for every word of [AR_NUM] whose value is at
    least 1000, when it is not the last word of the phrase; an Arabic word
    of value 100 to 999 is added to the group total, wherever it
    stands. *)
Theorem multiplier_word_rule :
  (∀ (word : str) (v cur res : Z),
     EN_UNIT !! word = Some v → 100 ≤ v →
     en_body word (cur, res) = Continue (0, res + coefficient cur * v)) ∧
  (∀ (words : list str) (i : nat) (word : str) (v : Z),
     words !! i = Some word → AR_NUM !! word = Some v → 1000 ≤ v →
     (S i < length words)%nat →
     ar_multiplier_rule words i word v) ∧
  (∀ (words : list str) (i : nat) (word : str) (v cur res : Z),
     words !! i = Some word → AR_NUM !! word = Some v → 100 ≤ v < 1000 →
     ∃ i', ar_body words word (i, cur, res) = Continue (i', cur + v, res)).
Proof.
  split; [|split].
  - intros word v cur res Hunit Hv. unfold en_body, coefficient.
    rewrite (EN_UNIT_not_NUM _ _ Hunit), Hunit.
    by rewrite decide_True by lia.
  - intros words i word v Hw Hnum Hv Hlen cur res.
    unfold ar_body, coefficient.
    destruct (take_2_drop_inner words i word Hw Hlen) as [word2 ->].
    rewrite (AR_multiplier_no_phrase word word2 v Hnum) by lia.
    rewrite Hnum. by rewrite decide_True by lia.
  - intros words i word v cur res Hw Hnum Hv. unfold ar_body.
    apply lookup_lt_Some in Hw as Hlt.
    destruct (decide (S i = length words)) as [Hlast|Hinner].
    + rewrite (take_2_drop_last words i word Hw Hlast).
      replace (join [SPACE] [word]) with word
        by (unfold join; simpl; by rewrite app_nil_r).
      rewrite Hnum. eauto.
    + destruct (take_2_drop_inner words i word Hw) as [word2 ->]; [lia|].
      rewrite (AR_multiplier_no_phrase word word2 v Hnum) by lia.
      rewrite Hnum. rewrite decide_False by lia. eauto.
Qed.

Lemma multiplier_word_rule_witness :
  en_body (u "thousand") (0, 0) = Continue (0, 1000) ∧
  ar_body (split (u "ثلاثة ألف واحد")) (u "ألف") (1%nat, 3, 0)
  = Continue (2%nat, 0, 3000) ∧
  ∃ i', ar_body (split (u "ثلاثة مائة")) (u "مائة") (1%nat, 3, 0)
        = Continue (i', 103, 0).
Proof.
  destruct multiplier_word_rule as (Hen & Har & Hhundred).
  split; [|split].
  - apply (Hen (u "thousand") 1000 0 0); [by vm_compute | lia].
  - apply (Har (split (u "ثلاثة ألف واحد")) 1%nat (u "ألف") 1000);
      [by vm_compute | by vm_compute | lia | vm_compute; lia].
  - apply (Hhundred (split (u "ثلاثة مائة")) 1%nat (u "مائة") 100 3 0);
      [by vm_compute | by vm_compute | lia].
Defined.

(** C3. If any token of the phrase is not recognised, the conversion
    returns the failure sentinel [-1], wherever the token stands and
    whatever had been accumulated before it. The English tokens are the
    words after case folding and hyphen splitting; a word is recognised if
    it is in [EN_NUM] or [EN_UNIT] or is the conjunction. The Arabic
    tokens are the two-word phrases of the table where the two-word test
    succeeds and the single words elsewhere; a token is recognised if it
    is in [AR_NUM] or is the conjunction. *)
Theorem unknown_token_fails (s : str) :
  (Exists en_unknown (en_words s) → en2an s = -1) ∧
  (Exists ar_unknown (ar_tokens (split s)) → ar2an s = Done (-1)).
Proof.
  split.
  - intros Hex. unfold en2an. by apply en_for_unknown.
  - intros Hex. unfold ar2an. apply ar_while_unknown; [lia|].
    by rewrite drop_0.
Qed.

Lemma unknown_token_fails_witness :
  en2an (u "two thousand five hundert forty-six") = -1 ∧
  ar2an (u "مائة وثلاثة وعشرون") = Done (-1).
Proof.
  split.
  - apply (unknown_token_fails (u "two thousand five hundert forty-six")).
    apply (bool_decide_unpack _). by vm_compute.
  - apply (unknown_token_fails (u "مائة وثلاثة وعشرون")).
    apply (bool_decide_unpack _). by vm_compute.
Defined.

(** C4. The positional converter returns its failure sentinel [-1] if and
    only if no character of the input maps to a coefficient, a scale value
    or a numeric digit. The failure is decided by the token list [tmp]
    alone, before the normalisation and slot assembly: [cn2an] fails
    exactly when [tmp] is empty. In particular the empty string fails. *)
Theorem cn2an_failure_iff_unrecognised (math_log10 : Z → Z) (s : str) :
  (cn2an math_log10 s = Done (VInt (-1)) ↔ Forall (λ d, ¬ recognised d) s) ∧
  (cn2an math_log10 s = Done (VInt (-1)) ↔ tokenise s = []) ∧
  cn2an math_log10 [] = Done (VInt (-1)).
Proof.
  assert (cn2an math_log10 s = Done (VInt (-1)) ↔ tokenise s = []) as Htok.
  { split.
    - intros Hfail. destruct (decide (tokenise s = [])) as [|Hne]; [done|].
      apply (cn2an_tokens_VStr math_log10) in Hne as [out Hout]. congruence.
    - intros Hnil. unfold cn2an. by rewrite decide_True. }
  split; [|split; [done | done]].
  rewrite Htok, tokenise_nil. apply Forall_proper; [|done].
  intros d. by rewrite not_recognised_classify.
Qed.

(** C5. The positional converter maps "三三三" to "333" (a string of digit
    characters only comes back unchanged in value), "十一" to "11", "十"
    to "10" (a bare scale word implies the coefficient 1) and "一百二十三"
    to "123". Of [math.log10] this uses its values on 10 and 100 only,
    where the float is exact. *)
Theorem cn2an_documented_pairs (math_log10 : Z → Z) :
  math_log10 10 = 1 → math_log10 100 = 2 →
  cn2an math_log10 (u "三三三") = Done (VStr (u "333")) ∧
  cn2an math_log10 (u "十一") = Done (VStr (u "11")) ∧
  cn2an math_log10 (u "十") = Done (VStr (u "10")) ∧
  cn2an math_log10 (u "一百二十三") = Done (VStr (u "123")).
Proof.
  intros H10 H100.
  assert (∀ s tmp2,
            normalise (tokenise s) = Done tmp2 →
            Forall (λ t, t ≤ 9 ∨ t = 10 ∨ t = 100) tmp2 →
            cn2an math_log10 s = cn2an log10_exact s) as Hexact.
  { intros s tmp2 Hnorm Htmp2. apply (cn2an_log10_ext _ _ s tmp2 Hnorm).
    eapply Forall_impl; [exact Htmp2|].
    intros t [Ht | [-> | ->]] Hbig; [lia | by rewrite H10 | by rewrite H100]. }
  repeat apply conj.
  - rewrite (Hexact (u "三三三") [3; 3; 3]); [by vm_compute.. |].
    repeat constructor; lia.
  - rewrite (Hexact (u "十一") [1; 10; 1]); [by vm_compute.. |].
    repeat constructor; lia.
  - rewrite (Hexact (u "十") [10; 1]); [by vm_compute.. |].
    repeat constructor; lia.
  - rewrite (Hexact (u "一百二十三") [3; 10; 2; 100; 1]); [by vm_compute.. |].
    repeat constructor; lia.
Qed.

Lemma cn2an_documented_pairs_witness :
  cn2an log10_exact (u "三三三") = Done (VStr (u "333")) ∧
  cn2an log10_exact (u "十一") = Done (VStr (u "11")) ∧
  cn2an log10_exact (u "十") = Done (VStr (u "10")) ∧
  cn2an log10_exact (u "一百二十三") = Done (VStr (u "123")).
Proof. apply (cn2an_documented_pairs log10_exact); by vm_compute. Defined.

(** C6. The accumulators never return a negative integer other than the
    failure sentinel [-1], and a string returned by the positional
    converter consists of the decimal digit characters "0" to "9" only. *)
Theorem results_well_formed (math_log10 : Z → Z) (s : str) :
  (en2an s = -1 ∨ 0 ≤ en2an s) ∧
  (∃ n, ar2an s = Done n ∧ (n = -1 ∨ 0 ≤ n)) ∧
  (∀ out, cn2an math_log10 s = Done (VStr out) → Forall is_ascii_digit out).
Proof.
  split; [|split].
  - unfold en2an. by apply en_for_range.
  - unfold ar2an. apply ar_while_range; lia.
  - intros out Hout.
    destruct (decide (tokenise s = [])) as [Hnil|Hne].
    { unfold cn2an in Hout. by rewrite decide_True in Hout. }
    destruct (cn2an_stages math_log10 s Hne)
      as (tmp2 & sq & sq' & _ & _ & _ & _ & _ & Hsq' & Hcn).
    rewrite Hcn in Hout. injection Hout as <-. by apply render_digits.
Qed.

Lemma results_well_formed_witness : Forall is_ascii_digit (u "130").
Proof.
  destruct (results_well_formed log10_exact (u "一百三")) as (_ & _ & Hcn).
  apply Hcn. by vm_compute.
Defined.

(** C7, as the specification states it, fails: a decimal digit outside
    ASCII, here the full-width digit three (U+FF13), is in neither table
    and is not an ASCII digit, yet [int] accepts it and [cn2an] converts
    it; with it removed nothing is left and [cn2an] fails. *)
Lemma cn2an_fullwidth_digit_not_skipped :
  cn2an log10_exact [0xFF13%N] = Done (VStr (u "3")) ∧
  cn2an log10_exact (filter recognised_ascii [0xFF13%N]) = Done (VInt (-1)) ∧
  cn2an log10_exact [0xFF13%N]
  ≠ cn2an log10_exact (filter recognised_ascii [0xFF13%N]).
Proof. vm_compute. repeat split. discriminate. Qed.

(** C7, amended. For every input string, the result of the positional
    converter is unchanged when every character that is in neither the
    coefficient table nor the scale table and is not a decimal digit (an
    ASCII digit or any other digit that [int] accepts) is removed before
    the conversion. *)
Theorem cn2an_ignores_unrecognised (math_log10 : Z → Z) (s : str) :
  cn2an math_log10 (filter recognised s) = cn2an math_log10 s.
Proof. unfold cn2an. by rewrite tokenise_filter. Qed.

(** C8, as the specification states it, fails: the phrase is lowered, so
    a lower-case letter outside ASCII whose upper-case form is an ASCII
    letter is not recognised while its upper-case form is. The long s
    (U+017F) is such a letter: with the case of its letters changed to
    upper case, the phrase made of the long s followed by "ix" is "SIX",
    which evaluates to 6, while the phrase itself is an unknown word. *)
Lemma en2an_long_s_case_changed :
  Forall2 case_changed ([0x17F%N] ++ u "ix") (u "SIX") ∧
  en2an ([0x17F%N] ++ u "ix") = -1 ∧ en2an (u "SIX") = 6 ∧
  ¬ (∀ s s', Forall2 case_changed s s' → en2an s = en2an s').
Proof.
  assert (Forall2 case_changed ([0x17F%N] ++ u "ix") (u "SIX")) as Hcase.
  { apply (bool_decide_unpack _). by vm_compute. }
  assert (en2an ([0x17F%N] ++ u "ix") = -1) as Hlong by (by vm_compute).
  assert (en2an (u "SIX") = 6) as Hsix by (by vm_compute).
  repeat apply conj; try done.
  intros Hall. specialize (Hall _ _ Hcase). rewrite Hlong, Hsix in Hall.
  discriminate Hall.
Qed.

(** C8, amended. The English accumulator does not depend on the case of
    the ASCII letters: two phrases that differ only by the case of letters
    A-Z have the same result. A hyphen acts as a word separator: a phrase
    with a hyphen and the same phrase with a space in its place have the
    same result; so "twenty-three" and "twenty three" agree. *)
Theorem en2an_case_and_hyphen :
  (∀ s s', Forall2 same_letter s s' → en2an s = en2an s') ∧
  (∀ a b, en2an (a ++ [HYPHEN] ++ b) = en2an (a ++ [SPACE] ++ b)) ∧
  en2an (u "twenty-three") = en2an (u "twenty three").
Proof.
  split; [|split].
  - intros s s' Hss. unfold en2an, en_words.
    by rewrite (lower_same_letter s s').
  - intros a b. unfold en2an, en_words.
    by rewrite !lower_app, !replace_app.
  - by vm_compute.
Qed.

Lemma en2an_case_and_hyphen_witness :
  en2an (u "Twenty THREE") = en2an (u "twenty three").
Proof.
  destruct en2an_case_and_hyphen as (Hcase & _ & _).
  apply Hcase. apply (bool_decide_unpack _). by vm_compute.
Defined.

(** C9. For every input with at least one recognised character, the
    positional converter ends normally, with no index out of range: the
    slot sequence built by the assembly step is not empty and its last
    element is a filled digit, never the placeholder [-1]; so the read of
    the first slot is in range, and when the fixup rule applies its
    forward scan stops on a filled slot at an index [p] inside the
    sequence, which puts the write to slot [p - 1] in range. *)
Theorem cn2an_no_index_out_of_range (math_log10 : Z → Z) (s : str) :
  Exists recognised s →
  ∃ tmp2 sq sq',
    normalise (tokenise s) = Done tmp2 ∧
    assemble math_log10 tmp2 = Done sq ∧
    sq ≠ [] ∧ ends_with_digit sq ∧
    is_Some (sq !! 0%nat) ∧
    ((1 < length sq)%nat →
     ∃ p d, skip_empty (S (length sq)) sq 1 = Done p ∧
            (1 ≤ p < length sq)%nat ∧ sq !! p = Some d ∧ d ≠ -1 ∧
            is_Some (sq !! (p - 1)%nat)) ∧
    fixup sq = Done sq' ∧
    cn2an math_log10 s = Done (VStr (render sq')).
Proof.
  intros Hex.
  assert (tokenise s ≠ []) as Hne.
  { rewrite tokenise_nil. intros Hall.
    apply Exists_exists in Hex as (d & Hin & Hd).
    apply recognised_classify in Hd as [v Hv].
    rewrite Forall_forall in Hall. specialize (Hall d Hin). simpl in Hall.
    congruence. }
  destruct (cn2an_stages math_log10 s Hne)
    as (tmp2 & sq & sq' & Hnorm & Hasm & Hsq & Hend & Hfix & _ & Hcn).
  destruct (ends_with_digit_lookup sq Hend) as (dl & _ & _ & Hpos).
  exists tmp2, sq, sq'. repeat split; try done.
  - intros ->. simpl in Hpos. lia.
  - apply lookup_lt_is_Some_2. lia.
  - intros Hlen.
    destruct (fixup_scan_ok sq Hend Hlen) as (p & d & Hrun & Hp & Hd & Hd').
    exists p, d. repeat split; try done; try lia.
    apply lookup_lt_is_Some_2. lia.
Qed.

Lemma cn2an_no_index_out_of_range_witness :
  ∃ tmp2 sq sq',
    normalise (tokenise (u "一百三")) = Done tmp2 ∧
    assemble log10_exact tmp2 = Done sq ∧
    sq ≠ [] ∧ ends_with_digit sq ∧
    is_Some (sq !! 0%nat) ∧
    ((1 < length sq)%nat →
     ∃ p d, skip_empty (S (length sq)) sq 1 = Done p ∧
            (1 ≤ p < length sq)%nat ∧ sq !! p = Some d ∧ d ≠ -1 ∧
            is_Some (sq !! (p - 1)%nat)) ∧
    fixup sq = Done sq' ∧
    cn2an log10_exact (u "一百三") = Done (VStr (render sq')).
Proof.
  apply (cn2an_no_index_out_of_range log10_exact (u "一百三")).
  apply Exists_cons. left. apply (bool_decide_unpack _). by vm_compute.
Defined.

(** C10. For an empty phrase or a phrase of white space only, both
    accumulators return the integer 0, a success value, and not the
    failure sentinel [-1]; in particular [en2an("") = 0] and
    [ar2an("") = 0]. *)
Theorem accumulators_on_blank_phrase (s : str) :
  Forall (λ c, isspace c = true) s → en2an s = 0 ∧ ar2an s = Done 0.
Proof.
  intros Hs. split.
  - unfold en2an. by rewrite en_words_spaces.
  - unfold ar2an, split. by rewrite split_from_spaces.
Qed.

Lemma accumulators_on_blank_phrase_witness :
  (en2an [] = 0 ∧ ar2an [] = Done 0) ∧
  (en2an (u "   ") = 0 ∧ ar2an (u "   ") = Done 0).
Proof.
  split.
  - apply (accumulators_on_blank_phrase []). constructor.
  - apply (accumulators_on_blank_phrase (u "   ")).
    apply (bool_decide_unpack _). by vm_compute.
Defined.

(** * Further properties of the code *)

(** ** [cn2an] on inputs without scale characters *)

(** Without scale characters every number of [tmp] is a digit. *)
Lemma tokenise_no_scale (s : str) :
  Forall (λ d, CN_UNIT !! [d] = None) s → Forall digit (tokenise s).
Proof.
  intros Hs. rewrite tokenise_omap. apply Forall_forall. intros v Hv.
  apply list_elem_of_omap in Hv as (d & Hd & Hv).
  rewrite elem_of_reverse in Hd.
  rewrite Forall_forall in Hs. specialize (Hs d Hd). simpl in Hs.
  unfold classify in Hv. rewrite Hs in Hv.
  destruct (CN_NUM !! [d]) eqn:E.
  - injection Hv as <-. by apply CN_NUM_digit in E.
  - by apply int_digit_digit in Hv.
Qed.

(** The second loop copies a [tmp] of digits. *)
Lemma normalise_body_digit (tmp_len : nat) (tmp tmp2 : list Z) (i : nat)
    (ti : Z) :
  tmp !! i = Some ti → digit ti →
  normalise_body tmp_len (tmp, tmp2) i = Done (tmp, tmp2 ++ [ti]).
Proof.
  intros Hti Hdig. unfold normalise_body.
  rewrite (getitem_Done _ _ _ Hti). simpl.
  by rewrite decide_False by (unfold digit in Hdig; lia).
Qed.

Lemma normalise_loop_digits (tmp : list Z) (n : nat) :
  Forall digit tmp →
  ∀ (i : nat) (tmp2 : list Z),
  (i + n = length tmp)%nat →
  for_each (seq i n) (normalise_body (length tmp)) (tmp, tmp2)
  = Done (tmp, tmp2 ++ drop i tmp).
Proof.
  intros Htmp. induction n as [|n IH]; intros i tmp2 Hi.
  - rewrite drop_ge by lia. by rewrite app_nil_r.
  - destruct (lookup_lt_is_Some_2 tmp i) as [ti Hti]; [lia|].
    assert (digit ti) as Hdig by (by eapply (Forall_lookup_1 _ tmp)).
    cbn [seq for_each]. rewrite (normalise_body_digit _ _ _ _ ti) by done.
    simpl. rewrite IH by lia. rewrite (drop_S _ _ _ Hti).
    by rewrite <- app_assoc.
Qed.

Lemma normalise_digits (tmp : list Z) :
  Forall digit tmp → normalise tmp = Done tmp.
Proof.
  intros Htmp. unfold normalise.
  rewrite (normalise_loop_digits tmp (length tmp) Htmp 0%nat []) by lia.
  done.
Qed.

(** The third loop copies a [tmp2] of digits, whatever [math.log10] is. *)
Lemma assemble_body_digit (f : Z → Z) (curW : Z) (sq : list Z) (t : Z) :
  digit t → assemble_body f (curW, sq) t = Done (curW + 1, sq ++ [t]).
Proof.
  intros Ht. unfold assemble_body.
  by rewrite decide_False by (unfold digit in Ht; lia).
Qed.

Lemma assemble_loop_digits (f : Z → Z) (tmp2 : list Z) :
  Forall digit tmp2 →
  ∀ (curW : Z) (sq : list Z),
  for_each tmp2 (assemble_body f) (curW, sq)
  = Done (curW + Z.of_nat (length tmp2), sq ++ tmp2).
Proof.
  induction 1 as [|t tmp2 Ht Htmp2 IH]; intros curW sq.
  - simpl. by rewrite Z.add_0_r, app_nil_r.
  - cbn [for_each]. rewrite assemble_body_digit by done. simpl.
    rewrite IH. f_equal. f_equal; [lia|]. by rewrite <- app_assoc.
Qed.

Lemma assemble_digits (f : Z → Z) (tmp2 : list Z) :
  Forall digit tmp2 → assemble f tmp2 = Done tmp2.
Proof.
  intros Htmp2. unfold assemble.
  by rewrite (assemble_loop_digits f tmp2 Htmp2 0 []).
Qed.

(** The fixup rule leaves a sequence of digits as it is. *)
Lemma fixup_digits (sq : list Z) :
  Forall digit sq → sq ≠ [] → fixup sq = Done sq.
Proof.
  intros Hsq Hne. unfold fixup.
  set (move := skip_empty _ _ _ ≫= _). clearbody move.
  destruct sq as [|s0 [|s1 sq]]; [done| |]; unfold getitem; simpl.
  - by destruct (decide (s0 > 0)).
  - apply Forall_cons in Hsq as [_ [Hs1 _]%Forall_cons].
    destruct (decide (s0 > 0)); simpl; [|done].
    by rewrite bool_decide_eq_false_2 by (unfold digit in Hs1; lia).
Qed.

(** Rendering digits gives their characters, most significant first. *)
Lemma render_digit_chars (sq : list Z) :
  Forall digit sq → render sq = digit_char <$> reverse sq.
Proof.
  intros Hsq. unfold render. apply Forall_reverse in Hsq.
  induction Hsq as [|n l Hn Hl IH]; [done|]. csimpl. rewrite IH.
  rewrite decide_True by (unfold digit in Hn; lia).
  by rewrite str_of_int_digit.
Qed.

Lemma omap_reverse {A B} (f : A → option B) (l : list A) :
  omap f (reverse l) = reverse (omap f l).
Proof.
  induction l as [|x l IH]; [done|]. rewrite reverse_cons, omap_app, IH.
  csimpl. destruct (f x); csimpl; [by rewrite reverse_cons | by rewrite app_nil_r].
Qed.

Lemma fmap_omap_digit_char (s : str) :
  digit_char <$> omap classify s = digits_of s.
Proof.
  unfold digits_of. induction s as [|d s IH]; [done|]. csimpl.
  destruct (classify d); csimpl; by rewrite IH.
Qed.

(** [cn2an] on an input without scale characters. *)
Lemma cn2an_no_scale (f : Z → Z) (s : str) :
  Forall (λ d, CN_UNIT !! [d] = None) s → tokenise s ≠ [] →
  cn2an f s = Done (VStr (digits_of s)).
Proof.
  intros Hs Hne. pose proof (tokenise_no_scale s Hs) as Hdig.
  unfold cn2an. rewrite decide_False by done.
  rewrite normalise_digits by done. simpl.
  rewrite assemble_digits by done. simpl.
  rewrite fixup_digits by done. simpl.
  rewrite render_digit_chars by done.
  rewrite tokenise_omap, omap_reverse, reverse_involutive.
  by rewrite fmap_omap_digit_char.
Qed.

Lemma tokenise_nonempty (s : str) : Exists recognised s → tokenise s ≠ [].
Proof.
  intros Hex. rewrite tokenise_nil. intros Hall.
  apply Exists_exists in Hex as (d & Hin & Hd).
  apply recognised_classify in Hd as [v Hv].
  rewrite Forall_forall in Hall. specialize (Hall d Hin). simpl in Hall.
  congruence.
Qed.

(** An ASCII digit is in neither table and has its own value. *)
Lemma classify_ascii_digit (d : N) :
  is_ascii_digit d →
  CN_UNIT !! [d] = None ∧ classify d = Some (Z.of_N d - 0x30).
Proof.
  intros [Hlo Hhi].
  assert (d = 0x30 ∨ d = 0x31 ∨ d = 0x32 ∨ d = 0x33 ∨ d = 0x34 ∨ d = 0x35
          ∨ d = 0x36 ∨ d = 0x37 ∨ d = 0x38 ∨ d = 0x39)%N as Hcases by lia.
  repeat (destruct Hcases as [-> | Hcases]; [by vm_compute|]).
  subst d. by vm_compute.
Qed.

Lemma digits_of_ascii (s : str) : Forall is_ascii_digit s → digits_of s = s.
Proof.
  unfold digits_of. induction 1 as [|d s Hd Hs IH]; [done|]. csimpl.
  destruct (classify_ascii_digit d Hd) as [_ ->]. csimpl. rewrite IH.
  f_equal. unfold digit_char. destruct Hd. lia.
Qed.

(** The rendered string has one character for each slot. *)
Lemma render_length (sq : list Z) :
  Forall slot sq → length (render sq) = length sq.
Proof.
  intros Hsq. unfold render. rewrite <- (length_reverse sq).
  apply Forall_reverse in Hsq.
  induction Hsq as [|n l Hn Hl IH]; [done|]. csimpl.
  rewrite length_app, IH. unfold slot in Hn.
  destruct (decide (n >= 0));
    by rewrite str_of_int_digit by (unfold digit; lia).
Qed.

(* THEOREMS *)
(** X1. On an input with no scale character and at least one recognised
    character, the positional converter returns the digits of the
    recognised characters in reading order, one ASCII digit for each
    coefficient character or decimal digit of any script, and skips the
    other characters; leading zeros are kept. *)
Theorem cn2an_without_scale_characters (math_log10 : Z → Z) (s : str) :
  Forall (λ d, CN_UNIT !! [d] = None) s → Exists recognised s →
  cn2an math_log10 s = Done (VStr (digits_of s)).
Proof.
  intros Hs Hex. apply cn2an_no_scale; [done|]. by apply tokenise_nonempty.
Qed.

Lemma cn2an_without_scale_characters_witness :
  cn2an log10_exact (u "二〇２5年") = Done (VStr (u "2025")).
Proof.
  apply (cn2an_without_scale_characters log10_exact (u "二〇２5年"));
    apply (bool_decide_unpack _); by vm_compute.
Defined.

(** X2. A non-empty string of ASCII digits comes back unchanged from the
    positional converter. *)
Theorem cn2an_ascii_digits_unchanged (math_log10 : Z → Z) (s : str) :
  s ≠ [] → Forall is_ascii_digit s → cn2an math_log10 s = Done (VStr s).
Proof.
  intros Hne Hs. rewrite <- (digits_of_ascii s Hs) at 2.
  apply cn2an_no_scale.
  - eapply Forall_impl; [exact Hs|]. intros d Hd.
    by destruct (classify_ascii_digit d Hd).
  - apply tokenise_nonempty. destruct s as [|d s]; [done|].
    apply Forall_cons in Hs as [Hd _]. apply Exists_cons. left.
    apply recognised_classify.
    destruct (classify_ascii_digit d Hd) as [_ ->]. by eexists.
Qed.

Lemma cn2an_ascii_digits_unchanged_witness :
  cn2an log10_exact (u "007") = Done (VStr (u "007")).
Proof.
  apply (cn2an_ascii_digits_unchanged log10_exact (u "007")); [done|].
  apply (bool_decide_unpack _). by vm_compute.
Defined.

(** X3. A string returned by the positional converter is never empty, and
    it has exactly one character for each slot of the sequence built by
    the assembly step. *)
Theorem cn2an_output_length (math_log10 : Z → Z) (s out : str) :
  cn2an math_log10 s = Done (VStr out) →
  out ≠ [] ∧
  ∃ tmp2 sq, normalise (tokenise s) = Done tmp2 ∧
             assemble math_log10 tmp2 = Done sq ∧
             length out = length sq.
Proof.
  intros Hout.
  destruct (decide (tokenise s = [])) as [Hnil|Hne].
  { unfold cn2an in Hout. by rewrite decide_True in Hout. }
  destruct (cn2an_stages math_log10 s Hne)
    as (tmp2 & sq & sq' & Hnorm & Hasm & Hsq & Hend & Hfix & Hsq' & Hcn).
  rewrite Hcn in Hout. injection Hout as <-.
  destruct (fixup_ok sq Hsq Hend) as (sq'' & Hfix' & _ & Hlen).
  assert (sq'' = sq') as -> by congruence.
  destruct (ends_with_digit_lookup sq Hend) as (dl & _ & _ & Hpos).
  assert (length (render sq') = length sq) as Hrl
    by (by rewrite render_length, Hlen).
  split.
  - intros Hnil. rewrite Hnil in Hrl. simpl in Hrl. lia.
  - by exists tmp2, sq.
Qed.

Lemma cn2an_output_length_witness :
  u "130" ≠ [] ∧
  ∃ tmp2 sq, normalise (tokenise (u "一百三")) = Done tmp2 ∧
             assemble log10_exact tmp2 = Done sq ∧
             length (u "130") = length sq.
Proof.
  apply (cn2an_output_length log10_exact (u "一百三") (u "130")).
  by vm_compute.
Defined.

(** ** More facts about [split] and the accumulators *)

(** A white-space character ends the word being read. *)
Lemma split_from_app (c : N) (b : str) :
  isspace c = true →
  ∀ (a word : str),
  split_from word (a ++ c :: b) = split_from word a ++ split b.
Proof.
  intros Hc a. induction a as [|x a IH]; intros word; simpl.
  - rewrite Hc. by destruct word.
  - destruct (isspace x); [|by apply IH].
    destruct word; by rewrite IH.
Qed.

Lemma split_app (a b : str) (c : N) :
  isspace c = true → split (a ++ [c] ++ b) = split a ++ split b.
Proof. intros Hc. by apply split_from_app. Qed.

Lemma split_nil : split [] = [].
Proof. done. Qed.

(** White space separates the words of [en2an] too. *)
Lemma en_words_app (a b : str) (c : N) :
  isspace c = true → en_words (a ++ [c] ++ b) = en_words a ++ en_words b.
Proof.
  intros Hc. unfold en_words.
  destruct (isspace_lower_char c Hc) as [Hlow Hne].
  rewrite !lower_app, !replace_app.
  replace (lower [c]) with [c]
    by (unfold lower; csimpl; by rewrite Hlow).
  replace (replace HYPHEN SPACE [c]) with [c]
    by (unfold replace; csimpl; by rewrite decide_False).
  by apply split_app.
Qed.

Lemma en_words_nil : en_words [] = [].
Proof. done. Qed.

(** The loop of [en2an] reads a prefix of words below the multipliers by
    adding their values to the group. *)
Lemma en_body_small (word : str) (cur res : Z) :
  en_small word →
  en_body word (cur, res) = Continue (cur + en_value word, res).
Proof.
  unfold en_body, en_value. intros [[v Hv] | [(v & Hv & Hlt) | ->]].
  - by rewrite Hv.
  - rewrite (EN_UNIT_not_NUM _ _ Hv), Hv. simpl.
    by rewrite decide_False by lia.
  - replace (EN_NUM !! EN_AND) with (@None Z) by (by vm_compute).
    replace (EN_UNIT !! EN_AND) with (@None Z) by (by vm_compute).
    rewrite decide_True by done. simpl. by rewrite Z.add_0_r.
Qed.

Lemma en_for_small_app (group rest : list str) :
  Forall en_small group →
  ∀ cur res,
  en_for (group ++ rest) (cur, res)
  = en_for rest (cur + sumZ (en_value <$> group), res).
Proof.
  induction 1 as [|word group Hw Hg IH]; intros cur res.
  - simpl. by rewrite Z.add_0_r.
  - cbn [app en_for]. rewrite en_body_small by done. rewrite IH.
    f_equal. f_equal. csimpl. lia.
Qed.

(** The conjunction leaves the state of the loop as it is. *)
Lemma en_for_skip_and (before after : list str) :
  ∀ st, en_for (before ++ [EN_AND] ++ after) st = en_for (before ++ after) st.
Proof.
  induction before as [|word before IH]; intros [cur res].
  - cbn [app en_for]. rewrite en_body_small by (right; by right).
    replace (en_value EN_AND) with 0 by (by vm_compute).
    by rewrite Z.add_0_r.
  - cbn [app en_for]. destruct (en_body word (cur, res)); [apply IH | done].
Qed.

(** Without an unknown word the loop of [en2an] returns a non-negative
    number. *)
Lemma en_for_known (words : list str) :
  ¬ Exists en_unknown words →
  ∀ cur res, 0 ≤ cur → 0 ≤ res → 0 ≤ en_for words (cur, res).
Proof.
  induction words as [|word words IH]; intros Hknown cur res Hcur Hres.
  - simpl. lia.
  - cbn [en_for].
    destruct (en_body word (cur, res)) as [[cur' res']|v] eqn:E.
    + apply en_body_nonneg in E as [? ?]; [|done..].
      apply IH; [|done..]. intros Hex. apply Hknown. by right.
    + apply en_body_Return in E as [_ Hunk]. destruct Hknown. by left.
Qed.

(** Without an unrecognised token the loop of [ar2an] returns a
    non-negative number. *)
Lemma ar_while_known (words : list str) (fuel : nat) :
  ∀ (i : nat) (cur res n : Z),
  (length words - i < fuel)%nat → 0 ≤ cur → 0 ≤ res →
  ar_while fuel words (i, cur, res) = Done n →
  ¬ Exists ar_unknown (ar_tokens (drop i words)) → 0 ≤ n.
Proof.
  induction fuel as [|fuel IH]; intros i cur res n Hfuel Hcur Hres; [lia|].
  cbn [ar_while fst snd].
  destruct (words !! i) as [word|] eqn:Hw; [|intros [= <-] _; lia].
  apply lookup_lt_Some in Hw as Hlt.
  rewrite (drop_S _ _ _ Hw). cbn [ar_tokens].
  rewrite <- (drop_S _ _ _ Hw).
  destruct (ar_body words word (i, cur, res)) as [[[i' cur'] res']|v] eqn:E.
  - intros Hrun Hknown. unfold ar_body in E.
    destruct (AR_NUM !! join _ _) as [v|] eqn:E1.
    + injection E as <- <- <-. apply AR_NUM_nonneg in E1.
      apply (IH (i + 2)%nat (cur + v) res n); [lia | lia | done | done |].
      intros Hex. apply Hknown. right.
      destruct (words !! S i) as [word2|] eqn:Hw2.
      * rewrite (drop_S _ _ _ Hw2).
        by replace (S (S i)) with (i + 2)%nat by lia.
      * apply lookup_ge_None_1 in Hw2.
        rewrite drop_ge in Hex by lia. apply Exists_nil in Hex as [].
    + assert (0 ≤ cur' ∧ 0 ≤ res' ∧ i' = (i + 1)%nat) as (? & ? & ->).
      { destruct (AR_NUM !! word) as [v|] eqn:E2.
        - apply AR_NUM_nonneg in E2.
          destruct (decide (v >= 1000)); [|injection E as <- <- <-; lia].
          destruct (decide (cur = 0)); injection E as <- <- <-;
            repeat split; (lia || nia).
        - destruct (decide (word = AR_CONJUNCTION)); [|done].
          injection E as <- <- <-. lia. }
      apply (IH (i + 1)%nat cur' res' n); [lia | done | done | done |].
      intros Hex. apply Hknown. right.
      by replace (S i) with (i + 1)%nat by lia.
  - intros [= <-] Hknown. destruct Hknown.
    apply ar_body_Return in E as (_ & Hnone & Hunk). simpl in Hnone.
    rewrite Hnone. by left.
Qed.

(** X4. The failure sentinel is not ambiguous: an accumulator returns [-1]
    if and only if some token of the phrase is not recognised; a phrase of
    recognised tokens never evaluates to [-1]. *)
Theorem sentinel_iff_unknown_token (s : str) :
  (en2an s = -1 ↔ Exists en_unknown (en_words s)) ∧
  (ar2an s = Done (-1) ↔ Exists ar_unknown (ar_tokens (split s))).
Proof.
  split; split.
  - intros Hfail.
    destruct (decide (Exists en_unknown (en_words s))) as [|Hknown]; [done|].
    pose proof (en_for_known _ Hknown 0 0 ltac:(lia) ltac:(lia)) as Hpos.
    unfold en2an in Hfail. lia.
  - intros Hex. unfold en2an. by apply en_for_unknown.
  - intros Hfail.
    destruct (decide (Exists ar_unknown (ar_tokens (split s))))
      as [|Hknown]; [done|].
    unfold ar2an in Hfail.
    pose proof (ar_while_known (split s) (S (length (split s))) 0%nat 0 0
                  (-1) ltac:(lia) ltac:(lia) ltac:(lia) Hfail) as Hpos.
    rewrite drop_0 in Hpos. specialize (Hpos Hknown). lia.
  - intros Hex. unfold ar2an. apply ar_while_unknown; [lia|].
    by rewrite drop_0.
Qed.

(** X5. On a phrase with no multiplier word (every word is in [EN_NUM], is
    a tens word or is the conjunction) the English accumulator returns the
    sum of the values of the words, in whatever order they stand: the
    grammar of the phrase is not checked. *)
Theorem en2an_sum_of_small_words (s : str) :
  Forall en_small (en_words s) →
  en2an s = sumZ (en_value <$> en_words s).
Proof.
  intros Hsmall. unfold en2an.
  rewrite <- (app_nil_r (en_words s)) at 1.
  rewrite en_for_small_app by done. simpl. lia.
Qed.

Lemma en2an_sum_of_small_words_witness :
  en2an (u "three twenty") = sumZ (en_value <$> en_words (u "three twenty")).
Proof.
  apply (en2an_sum_of_small_words (u "three twenty")).
  apply (bool_decide_unpack _). by vm_compute.
Defined.

(** X6. On a phrase with one multiplier word, the English accumulator
    returns the sum of the words before it (1 if that sum is 0) times the
    value of the multiplier, plus the sum of the words after it. *)
Theorem en2an_one_multiplier (s : str) (group rest : list str) (m : str)
    (v : Z) :
  en_words s = group ++ [m] ++ rest →
  Forall en_small group → Forall en_small rest →
  EN_UNIT !! m = Some v → 100 ≤ v →
  en2an s = coefficient (sumZ (en_value <$> group)) * v
            + sumZ (en_value <$> rest).
Proof.
  intros Hwords Hgroup Hrest Hm Hv. unfold en2an. rewrite Hwords.
  rewrite en_for_small_app by done. cbn [app en_for].
  unfold en_body at 1. rewrite (EN_UNIT_not_NUM _ _ Hm), Hm.
  rewrite decide_True by lia.
  rewrite <- (app_nil_r rest) at 1.
  rewrite en_for_small_app by done. simpl. unfold coefficient.
  destruct (decide (0 + sumZ (en_value <$> group) = 0)) as [H0|H0].
  - rewrite decide_True by lia. lia.
  - rewrite decide_False by lia. lia.
Qed.

Lemma en2an_one_multiplier_witness :
  en2an (u "Ninety-nine thousand and forty two") = 99 * 1000 + 42.
Proof.
  apply (en2an_one_multiplier (u "Ninety-nine thousand and forty two")
           [u "ninety"; u "nine"] [u "and"; u "forty"; u "two"]
           (u "thousand") 1000).
  - by vm_compute.
  - apply (bool_decide_unpack _). by vm_compute.
  - apply (bool_decide_unpack _). by vm_compute.
  - by vm_compute.
  - lia.
Defined.

(** X7. In both accumulators any white-space character separates words
    as a space does, and leading, trailing and repeated white space is
    ignored. *)
Theorem accumulators_white_space (a b : str) (c c' : N) :
  isspace c = true → isspace c' = true →
  (en2an (a ++ [c] ++ b) = en2an (a ++ [c'] ++ b) ∧
   en2an (a ++ [c; c'] ++ b) = en2an (a ++ [c] ++ b) ∧
   en2an ([c] ++ a) = en2an a ∧ en2an (a ++ [c]) = en2an a) ∧
  (ar2an (a ++ [c] ++ b) = ar2an (a ++ [c'] ++ b) ∧
   ar2an (a ++ [c; c'] ++ b) = ar2an (a ++ [c] ++ b) ∧
   ar2an ([c] ++ a) = ar2an a ∧ ar2an (a ++ [c]) = ar2an a).
Proof.
  intros Hc Hc'.
  assert (en_words (a ++ [c; c'] ++ b) = en_words a ++ en_words b) as Hen2.
  { change (a ++ [c; c'] ++ b) with (a ++ [c] ++ ([] ++ [c'] ++ b)).
    by rewrite !en_words_app. }
  assert (split (a ++ [c; c'] ++ b) = split a ++ split b) as Har2.
  { change (a ++ [c; c'] ++ b) with (a ++ [c] ++ ([] ++ [c'] ++ b)).
    by rewrite !split_app. }
  assert (en_words (a ++ [c]) = en_words a) as Hen3.
  { rewrite <- (app_nil_r (a ++ [c])), <- app_assoc.
    by rewrite en_words_app, en_words_nil, app_nil_r. }
  assert (split (a ++ [c]) = split a) as Har3.
  { rewrite <- (app_nil_r (a ++ [c])), <- app_assoc.
    by rewrite split_app, split_nil, app_nil_r. }
  split; repeat apply conj.
  - unfold en2an. by rewrite !en_words_app.
  - unfold en2an. by rewrite Hen2, en_words_app.
  - unfold en2an. change ([c] ++ a) with ([] ++ [c] ++ a).
    by rewrite en_words_app.
  - unfold en2an. by rewrite Hen3.
  - unfold ar2an. by rewrite !split_app.
  - unfold ar2an. by rewrite Har2, split_app.
  - unfold ar2an. change ([c] ++ a) with ([] ++ [c] ++ a).
    by rewrite split_app.
  - unfold ar2an. by rewrite Har3.
Qed.

Lemma accumulators_white_space_witness :
  en2an (u "twenty" ++ [0x09%N] ++ u "three")
  = en2an (u "twenty" ++ [0x3000%N] ++ u "three").
Proof.
  destruct (accumulators_white_space (u "twenty") (u "three") 0x09 0x3000)
    as [[H _] _]; done.
Defined.

(** X8. The English conjunction may stand anywhere between two words:
    the phrase with " and " and the phrase with a single space in its
    place have the same result. *)
Theorem en2an_and_anywhere (a b : str) :
  en2an (a ++ u " and " ++ b) = en2an (a ++ [SPACE] ++ b).
Proof.
  unfold en2an.
  change (u " and ") with ([SPACE] ++ u "and" ++ [SPACE]).
  rewrite <- !app_assoc.
  rewrite !(en_words_app a) by done.
  rewrite (en_words_app (u "and") b SPACE) by done.
  change (en_words (u "and")) with [EN_AND].
  apply en_for_skip_and.
Qed.

(** ** More facts about [ar2an] *)

Lemma join_two (x y : str) : join [SPACE] [x; y] = x ++ SPACE :: y.
Proof. unfold join. csimpl. by rewrite app_nil_r. Qed.

Lemma join_one (x : str) : join [SPACE] [x] = x.
Proof. unfold join. csimpl. by rewrite app_nil_r. Qed.

(** At the last word the two-word phrase is the word itself. *)
Lemma ar_body_last (words : list str) (i : nat) (word : str)
    (v cur res : Z) :
  words !! i = Some word → S i = length words → AR_NUM !! word = Some v →
  ar_body words word (i, cur, res) = Continue ((i + 2)%nat, cur + v, res).
Proof.
  intros Hw Hlast Hv. unfold ar_body.
  rewrite (take_2_drop_last words i word Hw Hlast), join_one.
  by rewrite Hv.
Qed.

(** One turn of the loop of [ar2an], and its end. *)
Lemma ar_while_step (fuel : nat) (words : list str) (i : nat) (cur res : Z)
    (word : str) (st' : nat * Z * Z) :
  words !! i = Some word →
  ar_body words word (i, cur, res) = Continue st' →
  ar_while (S fuel) words (i, cur, res) = ar_while fuel words st'.
Proof. intros Hw Hbody. cbn [ar_while fst snd]. by rewrite Hw, Hbody. Qed.

Lemma ar_while_end (fuel : nat) (words : list str) (i : nat) (cur res : Z) :
  words !! i = None →
  ar_while (S fuel) words (i, cur, res) = Done (res + cur).
Proof. intros Hw. cbn [ar_while fst snd]. by rewrite Hw. Qed.

(** X9. The last word of an Arabic phrase is read by the two-word test,
    which finds the word itself in the table: whatever its value, it is
    added to the group total, so a multiplier that ends the phrase does
    not multiply. *)
Theorem ar2an_last_word_is_added (words : list str) (i : nat) (word : str)
    (v cur res : Z) :
  words !! i = Some word → S i = length words → AR_NUM !! word = Some v →
  ar_body words word (i, cur, res) = Continue ((i + 2)%nat, cur + v, res).
Proof. apply ar_body_last. Qed.

Lemma ar2an_last_word_is_added_witness :
  ar_body (split (u "ثلاثة ألف")) (u "ألف") (1%nat, 3, 0)
  = Continue (3%nat, 1003, 0).
Proof.
  apply (ar2an_last_word_is_added (split (u "ثلاثة ألف")) 1 (u "ألف") 1000);
    by vm_compute.
Defined.

(** X10. An Arabic phrase of two table words that do not form a two-word
    phrase of the table evaluates to the sum of their values, in either
    order and whether or not one of them is a multiplier. *)
Theorem ar2an_two_words_sum (s w1 w2 : str) (v1 v2 : Z) :
  split s = [w1; w2] →
  AR_NUM !! w1 = Some v1 → AR_NUM !! w2 = Some v2 →
  AR_NUM !! join [SPACE] [w1; w2] = None →
  ar2an s = Done (v1 + v2).
Proof.
  intros Hwords Hv1 Hv2 Hphrase. unfold ar2an. rewrite Hwords.
  assert (∃ cur res,
            ar_body [w1; w2] w1 (0%nat, 0, 0) = Continue (1%nat, cur, res)
            ∧ res + cur = v1) as (cur & res & Hfirst & Hsum).
  { unfold ar_body. cbn [drop take]. rewrite Hphrase, Hv1.
    destruct (decide (v1 >= 1000)).
    - exists 0, v1. split; [|lia]. rewrite decide_True by done.
      do 2 f_equal. lia.
    - exists v1, 0. split; [|lia]. by do 2 f_equal. }
  cbn [length].
  rewrite (ar_while_step 2 [w1; w2] 0 0 0 w1 _ eq_refl Hfirst).
  rewrite (ar_while_step 1 [w1; w2] 1 cur res w2 _ eq_refl
             (ar_body_last [w1; w2] 1 w2 v2 cur res eq_refl eq_refl Hv2)).
  rewrite ar_while_end by done. f_equal. lia.
Qed.

Lemma ar2an_two_words_sum_witness :
  ar2an (u "ألف ثلاثة") = Done (1000 + 3) ∧
  ar2an (u "ثلاثة ألف") = Done (3 + 1000).
Proof.
  split.
  - apply (ar2an_two_words_sum (u "ألف ثلاثة") (u "ألف") (u "ثلاثة"));
      by vm_compute.
  - apply (ar2an_two_words_sum (u "ثلاثة ألف") (u "ثلاثة") (u "ألف"));
      by vm_compute.
Defined.

(** The words of [split] hold no white space. *)
Lemma split_from_no_space (s : str) :
  ∀ word : str,
  Forall (λ c, isspace c = false) word →
  Forall (Forall (λ c, isspace c = false)) (split_from word s).
Proof.
  induction s as [|c s IH]; intros word Hword; simpl.
  - destruct word; [apply Forall_nil_2 | apply Forall_cons_2; [done|]].
    apply Forall_nil_2.
  - destruct (isspace c) eqn:Hc.
    + destruct word;
        [by apply IH | apply Forall_cons_2; [done | by apply IH]].
    + apply IH. apply Forall_app. split; [done|].
      apply Forall_cons_2; [done | apply Forall_nil_2].
Qed.

Lemma split_no_SPACE (s word : str) : word ∈ split s → SPACE ∉ word.
Proof.
  intros Hin Hsp.
  pose proof (split_from_no_space s [] ltac:(constructor)) as Hall.
  rewrite Forall_forall in Hall. specialize (Hall word Hin).
  rewrite Forall_forall in Hall. specialize (Hall SPACE Hsp). done.
Qed.

Lemma cut_first_app (sep : N) (x w : str) :
  sep ∉ x → cut_first sep (x ++ sep :: w) = Some (x, w).
Proof.
  induction x as [|c x IH]; intros Hx; simpl.
  - by rewrite decide_True.
  - apply not_elem_of_cons in Hx as [Hc Hx].
    rewrite decide_False by done. by rewrite IH.
Qed.

(** A word that is in no way part of a recognised token makes every
    phrase that holds it fail. *)
Lemma ar_tokens_stray (w : str) :
  (∀ x, SPACE ∉ x → AR_NUM !! join [SPACE] [x; w] = None) →
  (∀ y, AR_NUM !! join [SPACE] [w; y] = None) →
  AR_NUM !! w = None → w ≠ AR_CONJUNCTION →
  ∀ (n : nat) (words : list str),
  (length words ≤ n)%nat → Forall (λ x, SPACE ∉ x) words → w ∈ words →
  Exists ar_unknown (ar_tokens words).
Proof.
  intros Hsecond Hfirst Hnone Hconj.
  induction n as [|n IH]; intros words Hlen Hwords Hin.
  { destruct words; [destruct (not_elem_of_nil _ Hin) | simpl in Hlen; lia]. }
  destruct words as [|word [|word2 rest]].
  - destruct (not_elem_of_nil _ Hin).
  - apply list_elem_of_singleton in Hin as <-.
    cbn [ar_tokens]. change (take 2 [w]) with [w].
    rewrite join_one, Hnone. left. by split.
  - cbn [ar_tokens].
    change (take 2 (word :: word2 :: rest)) with [word; word2].
    simpl in Hlen.
    apply Forall_cons in Hwords as [Hword [Hword2 Hrest]%Forall_cons].
    destruct (AR_NUM !! join [SPACE] [word; word2]) as [v|] eqn:E.
    + apply elem_of_cons in Hin as [<- | Hin]; [rewrite Hfirst in E; congruence|].
      apply elem_of_cons in Hin as [<- | Hin];
        [rewrite Hsecond in E; congruence|].
      right. refine (IH rest _ Hrest Hin). lia.
    + apply elem_of_cons in Hin as [<- | Hin]; [left; by split|].
      right.
      refine (IH (word2 :: rest) _ _ Hin); [simpl; lia | by apply Forall_cons_2].
Qed.

(** A table word with the conjunction attached in front is in no way
    part of a recognised token. *)
Lemma attached_conjunction_stray (k : str) (v : Z) :
  AR_NUM !! k = Some v → SPACE ∉ k →
  (∀ x, SPACE ∉ x →
        AR_NUM !! join [SPACE] [x; AR_CONJUNCTION ++ k] = None) ∧
  (∀ y, AR_NUM !! join [SPACE] [AR_CONJUNCTION ++ k; y] = None) ∧
  AR_NUM !! (AR_CONJUNCTION ++ k) = None ∧
  AR_CONJUNCTION ++ k ≠ AR_CONJUNCTION.
Proof.
  intros Hk Hsp. repeat apply conj.
  - intros x Hx. rewrite join_two.
    apply (table_lookup_None AR_NUM_items). intros Hin. cbn in Hin.
    repeat (apply elem_of_cons in Hin as [Hin|Hin];
            [apply (f_equal (cut_first SPACE)) in Hin;
             rewrite cut_first_app in Hin by done;
             vm_compute in Hin; discriminate Hin|]).
    by apply elem_of_nil in Hin.
  - intros y. rewrite join_two.
    apply (table_lookup_None AR_NUM_items). intros Hin. cbn in Hin.
    repeat (apply elem_of_cons in Hin as [Hin|Hin];
            [first [ discriminate Hin
                   | injection Hin as Hin;
                     apply (f_equal (cut_first SPACE)) in Hin;
                     rewrite cut_first_app in Hin by done;
                     vm_compute in Hin; discriminate Hin ]|]).
    by apply elem_of_nil in Hin.
  - apply (table_lookup_None AR_NUM_items). intros Hin. cbn in Hin.
    repeat (apply elem_of_cons in Hin as [Hin|Hin];
            [first [ discriminate Hin
                   | injection Hin as ->; vm_compute in Hk;
                     discriminate Hk ]|]).
    by apply elem_of_nil in Hin.
  - intros Heq. injection Heq as ->. vm_compute in Hk. discriminate Hk.
Qed.

(** X11. The Arabic conjunction is recognised only as a word of its own.
    Written attached to the number word that follows it, as in the
    phrases of the docstring and of the usage comments of [ar2an], it
    makes an unknown word, and every phrase that holds such a word
    fails. *)
Theorem ar2an_attached_conjunction (s k : str) (v : Z) :
  AR_NUM !! k = Some v → (AR_CONJUNCTION ++ k) ∈ split s →
  ar2an s = Done (-1).
Proof.
  intros Hk Hin.
  assert (SPACE ∉ k) as Hsp.
  { intros Hsp. apply (split_no_SPACE s _ Hin). by right. }
  destruct (attached_conjunction_stray k v Hk Hsp) as (H1 & H2 & H3 & H4).
  unfold ar2an. apply ar_while_unknown; [lia|]. rewrite drop_0.
  apply (ar_tokens_stray _ H1 H2 H3 H4 (length (split s))); [done| |done].
  apply Forall_forall. intros x Hx. by apply (split_no_SPACE s).
Qed.

Lemma ar2an_attached_conjunction_witness :
  ar2an (u "مائة وثلاثة وعشرون") = Done (-1).
Proof.
  apply (ar2an_attached_conjunction (u "مائة وثلاثة وعشرون") (u "ثلاثة") 3).
  - by vm_compute.
  - apply (bool_decide_unpack _). by vm_compute.
Defined.

(** ** Facts about [delete_punctuation] *)

#[global] Opaque PUNCTUATIONS.

Lemma PUNCTUATIONS_char (c : N) :
  [c] ∈ PUNCTUATIONS ↔ c ∈ PUNCTUATIONS_literal.
Proof.
  change PUNCTUATIONS
    with (list_to_set ((λ c, [c]) <$> PUNCTUATIONS_literal) : gset str).
  rewrite elem_of_list_to_set, list_elem_of_fmap. split.
  - by intros (c' & [= ->] & Hc').
  - intros Hc. by exists c.
Qed.

(** Every string of the set has one character. *)
Lemma PUNCTUATIONS_length (x : str) : x ∈ PUNCTUATIONS → length x = 1%nat.
Proof.
  change PUNCTUATIONS
    with (list_to_set ((λ c, [c]) <$> PUNCTUATIONS_literal) : gset str).
  rewrite elem_of_list_to_set, list_elem_of_fmap. by intros (c & -> & _).
Qed.

(** On a string, the characters outside the set are kept, in order. *)
Lemma delete_punctuation_Text (s : str) :
  delete_punctuation (Text s)
  = Text (filter (λ c, [c] ∉ PUNCTUATIONS) s).
Proof.
  unfold delete_punctuation. f_equal.
  induction s as [|c s IH]; [done|]. csimpl.
  rewrite !filter_cons. destruct (decide ([c] ∉ PUNCTUATIONS)); csimpl;
    by rewrite IH.
Qed.

(** No punctuation mark is a character that [cn2an] recognises. *)
Lemma PUNCTUATIONS_not_recognised (c : N) :
  [c] ∈ PUNCTUATIONS → classify c = None.
Proof.
  rewrite PUNCTUATIONS_char. revert c. apply Forall_forall.
  apply (bool_decide_unpack _). by vm_compute.
Qed.

Lemma omap_classify_filter (Q : N → Prop) `{!∀ c, Decision (Q c)}
    (l : str) :
  (∀ c, ¬ Q c → classify c = None) →
  omap classify (filter Q l) = omap classify l.
Proof.
  intros HQ. induction l as [|d l IH]; [done|].
  rewrite filter_cons. destruct (decide (Q d)) as [Hd|Hd]; csimpl.
  - by rewrite IH.
  - by rewrite (HQ d Hd).
Qed.

(** X12. Applied to a string, [delete_punctuation] removes exactly the
    characters of the punctuation set and keeps the others in order; no
    punctuation mark is left, a string without punctuation marks is
    unchanged, and a second application changes nothing. *)
Theorem delete_punctuation_string (s : str) :
  let kept := filter (λ c, [c] ∉ PUNCTUATIONS) s in
  delete_punctuation (Text s) = Text kept ∧
  Forall (λ c, [c] ∉ PUNCTUATIONS) kept ∧
  (Forall (λ c, [c] ∉ PUNCTUATIONS) s → kept = s) ∧
  delete_punctuation (Text kept) = Text kept.
Proof.
  intros kept. assert (Forall (λ c, [c] ∉ PUNCTUATIONS) kept) as Hkept.
  { apply Forall_forall. intros c Hc.
    by apply list_elem_of_filter in Hc as [? _]. }
  repeat apply conj.
  - apply delete_punctuation_Text.
  - done.
  - intros Hs. subst kept. clear Hkept.
    induction Hs as [|c s Hc Hs IH]; [done|].
    rewrite filter_cons, decide_True by done. by rewrite IH.
  - rewrite delete_punctuation_Text. f_equal.
    induction Hkept as [|c l Hc Hl IH]; [done|].
    rewrite filter_cons, decide_True by done. by rewrite IH.
Qed.

(** X13. Applied to a list, [delete_punctuation] removes the elements
    that are a single punctuation mark and nothing else: an element of
    any other length stays, unchanged, even when it is made of
    punctuation marks or holds some. *)
Theorem delete_punctuation_list (l : list str) :
  ∃ out,
    delete_punctuation (TextList l) = TextList out ∧
    out = filter (λ x, x ∉ PUNCTUATIONS) l ∧
    (∀ x, x ∈ l → length x ≠ 1%nat → x ∈ out) ∧
    (Forall (λ x, length x ≠ 1%nat) l → out = l).
Proof.
  eexists. split; [done|]. split; [done|]. split.
  - intros x Hx Hlen. apply list_elem_of_filter. split; [|done].
    intros Hp. by apply PUNCTUATIONS_length in Hp.
  - intros Hl. induction Hl as [|x l Hx Hl IH]; [done|].
    rewrite filter_cons, decide_True; [by f_equal|].
    intros Hp. by apply PUNCTUATIONS_length in Hp.
Qed.

Lemma delete_punctuation_list_witness :
  delete_punctuation (TextList [u "a,b"; u "..."; u ","; u "--"; []])
  = TextList [u "a,b"; u "..."; u "--"; []].
Proof.
  destruct (delete_punctuation_list [u "a,b"; u "..."; u ","; u "--"; []])
    as (out & -> & -> & _). by vm_compute.
Defined.

(** X14. Deleting the punctuation of a string before the positional
    conversion does not change its result. *)
Theorem cn2an_after_delete_punctuation (math_log10 : Z → Z) (s : str) :
  ∃ out, delete_punctuation (Text s) = Text out ∧
         cn2an math_log10 out = cn2an math_log10 s.
Proof.
  eexists. split; [apply delete_punctuation_Text|].
  unfold cn2an. rewrite !tokenise_omap, <- filter_reverse.
  rewrite omap_classify_filter; [done|].
  intros c Hc. apply PUNCTUATIONS_not_recognised.
  by apply dec_stable.
Qed.

(** ** Facts about [duration_from_vuvInfo] *)

Section vuv_facts.

Context {F : Type}.
Variable float : str → option F.

Lemma vuvInfo_body_Value (line : str) (sv su : list (F * F))
    (st' : Praat.segments) :
  Praat.vuvInfo_body float line (sv, su) = Praat.Value st' →
  (u "text" ∈ vuv_fields line ∧ st' = (sv, su)) ∨
  ((u "text" ∉ vuv_fields line) ∧
   ∃ text seg,
     vuv_fields line !! 1%nat = Some text ∧ vuv_segment float line seg ∧
     st' = if decide (text = u "V") then (sv ++ [seg], su)
           else if decide (text = u "U") then (sv, su ++ [seg])
           else (sv, su)).
Proof.
  unfold Praat.vuvInfo_body, vuv_segment. fold (vuv_fields line).
  destruct (decide (u "text" ∈ vuv_fields line)) as [Hin|Hin].
  { intros [= <-]. by left. }
  unfold Praat.item, Praat.to_float.
  destruct (vuv_fields line !! 0%nat) as [x|] eqn:H0; [|done]. csimpl.
  destruct (float x) as [tmin|] eqn:Hx; [|done]. csimpl.
  destruct (vuv_fields line !! 1%nat) as [text|] eqn:H1; [|done]. csimpl.
  destruct (vuv_fields line !! 2%nat) as [y|] eqn:H2; [|done]. csimpl.
  destruct (float y) as [tmax|] eqn:Hy; [|done]. csimpl.
  intros Hst. right. split; [done|]. exists text, (tmin, tmax).
  split; [done|]. split; [done|].
  repeat case_decide; by injection Hst as <-.
Qed.

Lemma vuvInfo_body_short (line : str) (st : Praat.segments) :
  u "text" ∉ vuv_fields line → (length (vuv_fields line) < 3)%nat →
  ∃ e, Praat.vuvInfo_body float line st = Praat.Raise e.
Proof.
  intros Hin Hlen. destruct st as [sv su].
  destruct (Praat.vuvInfo_body float line (sv, su)) as [st'|e] eqn:Hb;
    [|by exists e].
  apply vuvInfo_body_Value in Hb as [[Hin' _]|(_ & text & seg & _ & [_ H2] & _)];
    [done|].
  destruct (vuv_fields line !! 2%nat) as [y|] eqn:Hy; [|done].
  apply lookup_lt_Some in Hy. lia.
Qed.

Lemma vuvInfo_for_short (lines : list str) (st : Praat.segments) :
  Exists (λ line, (u "text" ∉ vuv_fields line) ∧
                  (length (vuv_fields line) < 3)%nat) lines →
  ∃ e, Praat.vuvInfo_for float lines st = Praat.Raise e.
Proof.
  intros Hex. revert st. induction Hex as [line lines [Hin Hlen]|line lines _ IH];
    intros st; simpl.
  - destruct (vuvInfo_body_short line st Hin Hlen) as [e ->]. by exists e.
  - destruct (Praat.vuvInfo_body float line st) as [st'|e]; cbn.
    + apply IH.
    + by exists e.
Qed.

Lemma vuvInfo_for_segments (lines : list str) (sv0 su0 sv su : list (F * F)) :
  Praat.vuvInfo_for float lines (sv0, su0) = Praat.Value (sv, su) →
  ∃ sv' su',
    sv = sv0 ++ sv' ∧ su = su0 ++ su' ∧
    Forall2 (vuv_segment float) (filter (vuv_row (u "V")) lines) sv' ∧
    Forall2 (vuv_segment float) (filter (vuv_row (u "U")) lines) su'.
Proof.
  revert sv0 su0. induction lines as [|line lines IH]; intros sv0 su0.
  { intros [= <- <-]. exists [], []. by rewrite !app_nil_r. }
  rewrite !filter_cons. cbn [Praat.vuvInfo_for].
  destruct (Praat.vuvInfo_body float line (sv0, su0)) as [st'|e] eqn:Hb;
    cbn [mbind Praat.result_bind]; [|intros [=]].
  intros Hfor.
  apply vuvInfo_body_Value in Hb
    as [[Hin ->]|(Hin & text & seg & H1 & Hseg & ->)].
  - apply IH in Hfor as (sv' & su' & -> & -> & Hv & Hu).
    exists sv', su'. rewrite !decide_False by (by intros [? _]). done.
  - destruct (decide (text = u "V")) as [->|HV];
      [|destruct (decide (text = u "U")) as [->|HU]];
      apply IH in Hfor as (sv' & su' & -> & -> & Hv & Hu).
    + exists (seg :: sv'), su'. rewrite <- !app_assoc.
      rewrite (decide_True (P := vuv_row (u "V") line)) by done.
      rewrite (decide_False (P := vuv_row (u "U") line)).
      2:{ intros [_ H1']. rewrite H1 in H1'. by vm_compute in H1'. }
      repeat apply conj; try done. by constructor.
    + exists sv', (seg :: su'). rewrite <- !app_assoc.
      rewrite (decide_True (P := vuv_row (u "U") line)) by done.
      rewrite (decide_False (P := vuv_row (u "V") line)).
      2:{ intros [_ H1']. rewrite H1 in H1'. by vm_compute in H1'. }
      repeat apply conj; try done. by constructor.
    + exists sv', su'.
      rewrite (decide_False (P := vuv_row (u "V") line)).
      2:{ intros [_ H1']. rewrite H1 in H1'. by injection H1'. }
      rewrite (decide_False (P := vuv_row (u "U") line)).
      2:{ intros [_ H1']. rewrite H1 in H1'. by injection H1'. }
      done.
Qed.

End vuv_facts.

(** ** Facts about trimming *)

Lemma lstrip_with_all (p : N → bool) (ws s : str) :
  Forall (λ c, p c = true) ws → lstrip_with p (ws ++ s) = lstrip_with p s.
Proof. induction 1 as [|c ws Hc _ IH]; [done|]. simpl. by rewrite Hc. Qed.

Lemma lstrip_with_nil (p : N → bool) (s : str) :
  lstrip_with p s = [] → Forall (λ c, p c = true) s.
Proof.
  induction s as [|c s IH]; [done|]. simpl.
  destruct (p c) eqn:Hc; [|done]. intros Hs. constructor; auto.
Qed.

Lemma lstrip_with_app (p : N → bool) (s t : str) :
  lstrip_with p s ≠ [] → lstrip_with p (s ++ t) = lstrip_with p s ++ t.
Proof.
  induction s as [|c s IH]; [done|]. simpl. destruct (p c); [apply IH|done].
Qed.

(** Characters that are trimmed, on either side, do not change the
    trimmed string. *)
Lemma strip_with_app (p : N → bool) (ws s ws' : str) :
  Forall (λ c, p c = true) ws → Forall (λ c, p c = true) ws' →
  strip_with p (ws ++ s ++ ws') = strip_with p s.
Proof.
  intros Hws Hws'. unfold strip_with. rewrite lstrip_with_all by done.
  destruct (decide (lstrip_with p s = [])) as [Hs|Hs].
  - rewrite Hs. apply lstrip_with_nil in Hs.
    rewrite lstrip_with_all by done.
    rewrite <- (app_nil_r ws'), lstrip_with_all by done. done.
  - rewrite lstrip_with_app, reverse_app by done.
    rewrite lstrip_with_all; [done|]. by apply Forall_reverse.
Qed.

Lemma strip_with_all (p : N → bool) (ws : str) :
  Forall (λ c, p c = true) ws → strip_with p ws = [].
Proof.
  intros Hws. unfold strip_with.
  rewrite <- (app_nil_r ws), lstrip_with_all by done. done.
Qed.

(** ** [duration_from_vuvInfo] *)

(** X15. A text that is empty or made of line feeds only makes
    [duration_from_vuvInfo] raise [ValueError]: the loop still runs once,
    on an empty line, and reads its only field as a number. *)
Theorem duration_from_vuvInfo_blank {F} (float : str → option F) (s : str) :
  float [] = None → Forall (λ c, c = Praat.NEWLINE) s →
  Praat.duration_from_vuvInfo float s = Praat.Raise Praat.ValueError.
Proof.
  intros Hfloat Hs. unfold Praat.duration_from_vuvInfo, Praat.vuvInfo_lines.
  rewrite strip_with_all.
  2:{ eapply Forall_impl; [exact Hs|]. intros c ->. done. }
  cbn [split_on Praat.vuvInfo_for Praat.vuvInfo_body].
  rewrite decide_False.
  2:{ intros Hin. apply list_elem_of_singleton in Hin. discriminate Hin. }
  cbn. unfold Praat.to_float. by rewrite Hfloat.
Qed.

Lemma duration_from_vuvInfo_blank_witness :
  Praat.duration_from_vuvInfo float_of_digits
    [Praat.NEWLINE; Praat.NEWLINE] = Praat.Raise Praat.ValueError.
Proof.
  apply duration_from_vuvInfo_blank; [by vm_compute|].
  by repeat constructor.
Defined.

(** X16. A line that has fewer than three fields, none of them the word
    [text], makes [duration_from_vuvInfo] raise, wherever the line stands
    and whatever the other lines are. *)
Theorem duration_from_vuvInfo_short_line {F} (float : str → option F)
    (s : str) :
  Exists (λ line, (u "text" ∉ vuv_fields line) ∧
                  (length (vuv_fields line) < 3)%nat)
         (Praat.vuvInfo_lines s) →
  ∃ e, Praat.duration_from_vuvInfo float s = Praat.Raise e.
Proof. apply vuvInfo_for_short. Qed.

Lemma duration_from_vuvInfo_short_line_witness :
  ∃ e, Praat.duration_from_vuvInfo float_of_digits
         (vuv_listing ++ [Praat.NEWLINE] ++ vuv_listing) = Praat.Raise e.
Proof.
  apply duration_from_vuvInfo_short_line.
  apply (bool_decide_unpack _). by vm_compute.
Defined.

(** X17. When [duration_from_vuvInfo] returns, the voiced segments are, in
    order, one for each line without a field [text] whose second field is
    [V], made of the numbers read from the first and the third field of
    that line; likewise the unvoiced segments for the label [U]. Lines
    with another label, or with a field [text], give no segment. *)
Theorem duration_from_vuvInfo_segments {F} (float : str → option F)
    (s : str) (sv su : list (F * F)) :
  Praat.duration_from_vuvInfo float s = Praat.Value (sv, su) →
  Forall2 (vuv_segment float)
    (filter (vuv_row (u "V")) (Praat.vuvInfo_lines s)) sv ∧
  Forall2 (vuv_segment float)
    (filter (vuv_row (u "U")) (Praat.vuvInfo_lines s)) su.
Proof.
  intros Hs. apply vuvInfo_for_segments in Hs as (sv' & su' & -> & -> & Hv & Hu).
  done.
Qed.

Lemma duration_from_vuvInfo_segments_witness :
  Praat.duration_from_vuvInfo float_of_digits vuv_listing
  = Praat.Value ([(u "0", u "12")], [(u "12", u "30")]) ∧
  Forall2 (vuv_segment float_of_digits)
    (filter (vuv_row (u "V")) (Praat.vuvInfo_lines vuv_listing))
    [(u "0", u "12")] ∧
  Forall2 (vuv_segment float_of_digits)
    (filter (vuv_row (u "U")) (Praat.vuvInfo_lines vuv_listing))
    [(u "12", u "30")].
Proof.
  split; [by vm_compute|].
  apply (duration_from_vuvInfo_segments float_of_digits vuv_listing).
  by vm_compute.
Defined.

(** X18. Line feeds at the start and at the end of the text are not
    seen by [duration_from_vuvInfo]. *)
Theorem duration_from_vuvInfo_trims {F} (float : str → option F)
    (before s after : str) :
  Forall (λ c, c = Praat.NEWLINE) before →
  Forall (λ c, c = Praat.NEWLINE) after →
  Praat.duration_from_vuvInfo float (before ++ s ++ after)
  = Praat.duration_from_vuvInfo float s.
Proof.
  intros Hb Ha. unfold Praat.duration_from_vuvInfo, Praat.vuvInfo_lines.
  rewrite strip_with_app; [done| |].
  - eapply Forall_impl; [exact Hb|]. by intros c ->.
  - eapply Forall_impl; [exact Ha|]. by intros c ->.
Qed.

Lemma duration_from_vuvInfo_trims_witness :
  Praat.duration_from_vuvInfo float_of_digits
    ([Praat.NEWLINE] ++ vuv_listing ++ [Praat.NEWLINE; Praat.NEWLINE])
  = Praat.duration_from_vuvInfo float_of_digits vuv_listing.
Proof. apply duration_from_vuvInfo_trims; by repeat constructor. Defined.

(** ** Facts about the helpers of the prediction service *)

#[global] Opaque ALLOWED_EXTENSIONS label_text_positive.

Lemma rsplit1_app (sep : N) (a e : str) :
  sep ∉ e → rsplit1 sep (a ++ [sep] ++ e) = [a; e].
Proof.
  intros He. unfold rsplit1.
  change (a ++ [sep] ++ e) with (a ++ sep :: e).
  rewrite reverse_app, reverse_cons, <- app_assoc.
  change (reverse e ++ [sep] ++ reverse a)
    with (reverse e ++ sep :: reverse a).
  rewrite cut_first_app by (by rewrite elem_of_reverse).
  by rewrite !reverse_involutive.
Qed.

Lemma allowed_file_app (a e : str) :
  DOT ∉ e →
  allowed_file (a ++ [DOT] ++ e)
  = Done (bool_decide (lower e ∈ ALLOWED_EXTENSIONS)).
Proof.
  intros He. unfold allowed_file. rewrite decide_True by set_solver.
  by rewrite rsplit1_app.
Qed.

Lemma lower_char_cases (c : N) :
  ((0x41 ≤ c)%N ∧ (c ≤ 0x5A)%N ∧ lower_char c = [(c + 0x20)%N]) ∨
  lower_char c = [0x69; 0x307]%N ∨ lower_char c = [0x6B]%N ∨
  lower_char c = [c].
Proof.
  unfold lower_char.
  destruct (N.leb_spec 0x41 c), (N.leb_spec c 0x5A); simpl; auto;
    destruct (c =? 0x130)%N; auto; destruct (c =? 0x212A)%N; auto.
Qed.

(** What lowers to a string of lower-case letters other than [k] is that
    string, up to the case of its letters. *)
Lemma lower_plain (e x : str) :
  Forall plain_letter x → lower e = x → Forall2 same_letter e x.
Proof.
  revert x. induction e as [|c e IH]; intros x Hx.
  { intros <-. constructor. }
  change (lower (c :: e)) with (lower_char c ++ lower e).
  destruct (lower_char_cases c) as [(H1 & H2 & ->) | [-> | [-> | ->]]];
    intros <-; simpl in Hx.
  - apply Forall_cons in Hx as [_ Hx]. constructor; [|by apply IH].
    unfold same_letter. auto.
  - apply Forall_cons in Hx as [_ Hx]. apply Forall_cons in Hx as [Hc _].
    unfold plain_letter in Hc. lia.
  - apply Forall_cons in Hx as [Hc _]. unfold plain_letter in Hc. lia.
  - apply Forall_cons in Hx as [_ Hx]. constructor; [|by apply IH].
    by left.
Qed.

Lemma same_letter_DOT (c c' : N) : same_letter c c' → c = DOT → c' = DOT.
Proof. unfold same_letter, DOT. intros H ->. lia. Qed.

Lemma ALLOWED_EXTENSIONS_plain (x : str) :
  x ∈ ALLOWED_EXTENSIONS_items →
  Forall plain_letter x ∧ lower x = x ∧ DOT ∉ x.
Proof.
  revert x. apply Forall_forall. apply (bool_decide_unpack _). by vm_compute.
Qed.

Lemma same_letter_no_DOT (e x : str) :
  Forall2 same_letter e x → DOT ∉ x → DOT ∉ e.
Proof.
  induction 1 as [|c c' e x Hc _ IH]; [done|].
  rewrite !not_elem_of_cons. intros [Hc' Hx]. split; [|by apply IH].
  intros Heq. apply Hc'. symmetry.
  eapply same_letter_DOT; [exact Hc|by symmetry].
Qed.

Lemma isspace_same_letter (c c' : N) :
  same_letter c c' → isspace c = isspace c'.
Proof.
  assert (∀ d, isspace d = true → ¬ (0x41 ≤ d ∧ d ≤ 0x7A)%N) as Hsp.
  { intros d H. unfold isspace in H.
    rewrite !orb_true_iff, !andb_true_iff, !N.leb_le, !N.eqb_eq in H. lia. }
  intros [-> | [(H1 & H2 & ->) | (H1 & H2 & ->)]]; [done| |].
  - destruct (isspace c) eqn:E1; [apply Hsp in E1; lia|].
    destruct (isspace (c + 32)) eqn:E2; [apply Hsp in E2; lia|done].
  - destruct (isspace c') eqn:E1; [apply Hsp in E1; lia|].
    destruct (isspace (c' + 32)) eqn:E2; [apply Hsp in E2; lia|done].
Qed.

Lemma lstrip_with_Forall2 (R : N → N → Prop) (p : N → bool) (s s' : str) :
  (∀ c c', R c c' → p c = p c') →
  Forall2 R s s' → Forall2 R (lstrip_with p s) (lstrip_with p s').
Proof.
  intros HR. induction 1 as [|c c' s s' Hc Hs IH]; [constructor|].
  simpl. rewrite <- (HR c c' Hc). destruct (p c); [done|by constructor].
Qed.

Lemma strip_same_letter (s s' : str) :
  Forall2 same_letter s s' → Forall2 same_letter (strip s) (strip s').
Proof.
  intros H. unfold strip, strip_with. apply Forall2_reverse.
  apply lstrip_with_Forall2; [apply isspace_same_letter|].
  apply Forall2_reverse.
  by apply lstrip_with_Forall2; [apply isspace_same_letter|].
Qed.

(** ** [allowed_file] and [label_text] *)

(** X19. [allowed_file] never raises, and it answers [True] exactly for
    the names that end with a dot followed by one of the five extensions,
    written in any mix of upper and lower case; what stands before that
    last dot, even nothing or more dots, plays no part. *)
Theorem allowed_file_extensions (fname : str) :
  (∃ b, allowed_file fname = Done b) ∧
  (allowed_file fname = Done true ↔
   ∃ base e x,
     fname = base ++ [DOT] ++ e ∧ x ∈ ALLOWED_EXTENSIONS_items ∧
     Forall2 same_letter e x).
Proof.
  assert (∀ e, lower e ∈ ALLOWED_EXTENSIONS
               ↔ lower e ∈ ALLOWED_EXTENSIONS_items) as Hset.
  { intros e.
    change ALLOWED_EXTENSIONS
      with (list_to_set ALLOWED_EXTENSIONS_items : gset str).
    apply elem_of_list_to_set. }
  split.
  - destruct (decide (DOT ∈ fname)) as [Hin|Hin].
    + apply list_elem_of_split_r in Hin as (base & e & -> & He).
      exists (bool_decide (lower e ∈ ALLOWED_EXTENSIONS)).
      by apply allowed_file_app.
    + unfold allowed_file. rewrite decide_False by done. by eexists.
  - split.
    + destruct (decide (DOT ∈ fname)) as [Hin|Hin].
      * apply list_elem_of_split_r in Hin as (base & e & -> & He).
        change (base ++ DOT :: e) with (base ++ [DOT] ++ e).
        rewrite (allowed_file_app base e He). intros [= Hb].
        apply bool_decide_eq_true, Hset in Hb.
        exists base, e, (lower e). split; [done|]. split; [done|].
        apply lower_plain; [|done].
        by apply ALLOWED_EXTENSIONS_plain in Hb as [? _].
      * unfold allowed_file. rewrite decide_False by done. intros [=].
    + intros (base & e & x & -> & Hx & He).
      destruct (ALLOWED_EXTENSIONS_plain x Hx) as (_ & Hlow & Hdot).
      rewrite allowed_file_app by (by eapply same_letter_no_DOT).
      f_equal. apply bool_decide_eq_true, Hset.
      by rewrite (lower_same_letter e x He), Hlow.
Qed.

(** X20. [label_text] does not see white space around its argument nor
    the case of its letters. *)
Theorem label_text_case_and_space (ws ws' s s' : str) :
  Forall (λ c, isspace c = true) ws → Forall (λ c, isspace c = true) ws' →
  Forall2 same_letter s s' →
  label_text (ws ++ s ++ ws') = label_text s'.
Proof.
  intros Hws Hws' Hs. unfold label_text.
  replace (strip (ws ++ s ++ ws')) with (strip s)
    by (symmetry; by apply strip_with_app).
  by rewrite (lower_same_letter _ _ (strip_same_letter s s' Hs)).
Qed.

Lemma label_text_case_and_space_witness :
  label_text (u "  " ++ u "Likely_DEMENTIA" ++ u " ")
  = label_text (u "likely_dementia") ∧
  label_text (u "likely_dementia") = u "Likely Dementia".
Proof.
  split; [|by vm_compute].
  apply label_text_case_and_space; apply (bool_decide_unpack _);
    by vm_compute.
Defined.

(** ** Facts about [duration_from_vuvTextGrid] *)

Section textgrid_facts.

Context {F : Type}.
Variable float : str → option F.

Lemma index_Value {A} (l : list A) (i : Z) :
  - Z.of_nat (length l) ≤ i < Z.of_nat (length l) →
  ∃ x, Praat.index l i = Praat.Value x.
Proof.
  intros Hi. unfold Praat.index, Praat.item.
  destruct (decide (0 ≤ i)).
  - destruct (lookup_lt_is_Some_2 l (Z.to_nat i)) as [x ->]; [lia|].
    by exists x.
  - rewrite decide_True by lia.
    destruct (lookup_lt_is_Some_2 l (Z.to_nat (Z.of_nat (length l) + i)))
      as [x ->]; [lia|]. by exists x.
Qed.

(** Out of a one-line list, the times of a label can be read or are not
    numbers. *)
Lemma vuvTextGrid_times_cases (data_list : list str) (i : nat) :
  (i < length data_list)%nat → length data_list ≠ 1%nat →
  Praat.vuvTextGrid_times float data_list i = Praat.Raise Praat.ValueError ∨
  ∃ seg, Praat.vuvTextGrid_times float data_list i = Praat.Value seg.
Proof.
  intros Hi Hlen. unfold Praat.vuvTextGrid_times.
  destruct (index_Value data_list (Z.of_nat i - 2)) as [x ->]; [lia|].
  cbn [mbind Praat.result_bind]. unfold Praat.to_float.
  destruct (float x) as [tmin|]; [|by left].
  cbn [mbind Praat.result_bind].
  destruct (index_Value data_list (Z.of_nat i - 1)) as [y ->]; [lia|].
  cbn [mbind Praat.result_bind].
  destruct (float y) as [tmax|]; [|by left].
  right. by eexists.
Qed.

(** The body on a line of the list. *)
Lemma vuvTextGrid_body_line (i : nat) (data_list : list str) (line : str)
    (sv su : list (@Praat.segment F)) :
  data_list !! i = Some line →
  Praat.vuvTextGrid_body float i (data_list, ((sv, su) : Praat.segments))
  = let data_list' := <[i := strip line]> data_list in
    if decide (strip line = Praat.LABEL_V) then
      seg ← Praat.vuvTextGrid_times float data_list' i;
      Praat.Value (data_list', (sv ++ [seg], su))
    else if decide (strip line = Praat.LABEL_U) then
      seg ← Praat.vuvTextGrid_times float data_list' i;
      Praat.Value (data_list', (sv, su ++ [seg]))
    else Praat.Value (data_list', (sv, su)).
Proof.
  intros Hline. unfold Praat.vuvTextGrid_body, Praat.item. rewrite Hline.
  cbn [mbind Praat.result_bind].
  rewrite list_lookup_insert_eq by (by eapply lookup_lt_Some).
  done.
Qed.

Lemma vuvTextGrid_body_no_label (i : nat) (data_list : list str)
    (line : str) (segs : Praat.segments) :
  data_list !! i = Some line → no_label line →
  Praat.vuvTextGrid_body float i (data_list, segs)
  = Praat.Value (<[i := strip line]> data_list, segs).
Proof.
  intros Hline [HV HU]. destruct segs as [sv su].
  rewrite (vuvTextGrid_body_line i data_list line sv su Hline).
  cbn zeta. by rewrite !decide_False.
Qed.

(** A run of the loop over lines that are not labels changes no
    segment; it trims the lines it runs over and leaves the others. *)
Lemma vuvTextGrid_for_no_label (n k : nat) (data_list : list str)
    (segs : Praat.segments) :
  (k + n ≤ length data_list)%nat →
  (∀ j line, (k ≤ j < k + n)%nat →
             data_list !! j = Some line → no_label line) →
  ∃ data_list',
    Praat.vuvTextGrid_for float (seq k n) (data_list, segs)
    = Praat.Value (data_list', segs) ∧
    length data_list' = length data_list ∧
    (∀ j, (k ≤ j < k + n)%nat →
          data_list' !! j = strip <$> data_list !! j) ∧
    (∀ j, ¬ (k ≤ j < k + n)%nat → data_list' !! j = data_list !! j).
Proof.
  revert k data_list. induction n as [|n IH]; intros k data_list Hlen Hno.
  { exists data_list. repeat apply conj; try done. intros j Hj. lia. }
  destruct (lookup_lt_is_Some_2 data_list k) as [line Hline]; [lia|].
  cbn [seq Praat.vuvTextGrid_for].
  rewrite (vuvTextGrid_body_no_label k data_list line segs Hline)
    by (eapply Hno; [|done]; lia).
  cbn [mbind Praat.result_bind].
  destruct (IH (S k) (<[k := strip line]> data_list))
    as (data_list' & Hfor & Hlen' & Hin & Hout).
  - rewrite length_insert. lia.
  - intros j line' Hj Hline'.
    rewrite list_lookup_insert_ne in Hline' by lia. eapply Hno; [|done]. lia.
  - exists data_list'. rewrite length_insert in Hlen'.
    repeat apply conj; try done.
    + intros j Hj. destruct (decide (j = k)) as [->|Hjk].
      * rewrite Hout by lia.
        rewrite list_lookup_insert_eq by lia. by rewrite Hline.
      * rewrite Hin by lia. by rewrite list_lookup_insert_ne by lia.
    + intros j Hj. rewrite Hout by lia.
      by rewrite list_lookup_insert_ne by lia.
Qed.

Lemma vuvTextGrid_for_app (l1 l2 : list nat)
    (st : list str * Praat.segments) :
  Praat.vuvTextGrid_for float (l1 ++ l2) st
  = Praat.vuvTextGrid_for float l1 st ≫= Praat.vuvTextGrid_for float l2.
Proof.
  revert st. induction l1 as [|i l1 IH]; intros st; [done|].
  cbn [app Praat.vuvTextGrid_for].
  destruct (Praat.vuvTextGrid_body float i st) as [st'|e];
    cbn [mbind Praat.result_bind]; [apply IH|done].
Qed.

(** The body on a label [V] whose times can be read. *)
Lemma vuvTextGrid_body_V (i : nat) (data_list : list str) (label x y : str)
    (tmin tmax : F) :
  data_list !! i = Some label → strip label = Praat.LABEL_V →
  Praat.index (<[i := strip label]> data_list) (Z.of_nat i - 2)
  = Praat.Value x →
  Praat.index (<[i := strip label]> data_list) (Z.of_nat i - 1)
  = Praat.Value y →
  float x = Some tmin → float y = Some tmax →
  Praat.vuvTextGrid_body float i (data_list, (([], []) : Praat.segments))
  = Praat.Value (<[i := strip label]> data_list, ([(tmin, tmax)], [])).
Proof.
  intros Hlabel HV Hx Hy Hmin Hmax.
  rewrite (vuvTextGrid_body_line i data_list label [] [] Hlabel). cbn zeta.
  rewrite decide_True by done. unfold Praat.vuvTextGrid_times.
  rewrite Hx. cbn [mbind Praat.result_bind]. unfold Praat.to_float.
  rewrite Hmin. cbn [mbind Praat.result_bind].
  rewrite Hy. cbn [mbind Praat.result_bind].
  rewrite Hmax. done.
Qed.

(** The loop does not raise [IndexError] on a list that has not exactly
    one line. *)
Lemma vuvTextGrid_for_IndexError (indices : list nat)
    (data_list : list str) (segs : Praat.segments) :
  length data_list ≠ 1%nat →
  Forall (λ i, (i < length data_list)%nat) indices →
  Praat.vuvTextGrid_for float indices (data_list, segs)
  ≠ Praat.Raise Praat.IndexError.
Proof.
  intros Hlen. revert data_list segs Hlen.
  induction indices as [|i indices IH]; intros data_list segs Hlen Hind;
    [done|].
  apply Forall_cons in Hind as [Hi Hind].
  destruct (lookup_lt_is_Some_2 data_list i Hi) as [line Hline].
  destruct segs as [sv su]. cbn [Praat.vuvTextGrid_for].
  rewrite (vuvTextGrid_body_line i data_list line sv su Hline). cbn zeta.
  set (data_list' := <[i := strip line]> data_list).
  assert (length data_list' = length data_list) as Hlen'
    by apply length_insert.
  assert (∀ segs', Praat.vuvTextGrid_for float indices (data_list', segs')
                   ≠ Praat.Raise Praat.IndexError) as Hnext.
  { intros segs'. apply IH; [by rewrite Hlen'|]. by rewrite Hlen'. }
  destruct (vuvTextGrid_times_cases data_list' i) as [Ht|[seg Ht]];
    [by rewrite Hlen'|by rewrite Hlen'| |];
    repeat case_decide; rewrite ?Ht; cbn [mbind Praat.result_bind];
    done || apply Hnext.
Qed.

End textgrid_facts.

Lemma duration_from_vuvTextGrid_Value {F} (float : str → option F)
    (data_list data_list' : list str) (segs : Praat.segments) :
  Praat.vuvTextGrid_for float (seq 0 (length data_list))
    (data_list, (([], []) : Praat.segments))
  = Praat.Value (data_list', segs) →
  Praat.duration_from_vuvTextGrid float data_list = Praat.Value segs.
Proof. unfold Praat.duration_from_vuvTextGrid. cbn zeta. by intros ->. Qed.

Lemma duration_from_vuvTextGrid_Raise {F} (float : str → option F)
    (data_list : list str) (e : Praat.exception) :
  Praat.duration_from_vuvTextGrid float data_list = Praat.Raise e ↔
  Praat.vuvTextGrid_for float (seq 0 (length data_list))
    (data_list, (([], []) : Praat.segments))
  = Praat.Raise e.
Proof.
  unfold Praat.duration_from_vuvTextGrid. cbn zeta.
  destruct (Praat.vuvTextGrid_for float _ _) as [st|e']; cbn; [done|].
  split; by intros [= ->].
Qed.

Lemma index_last_two {A} (l : list A) (a b : A) :
  Praat.index (l ++ [a; b]) (-2) = Praat.Value a ∧
  Praat.index (l ++ [a; b]) (-1) = Praat.Value b.
Proof.
  unfold Praat.index, Praat.item. rewrite length_app. cbn [length]. split.
  - rewrite decide_False, decide_True by lia.
    replace (Z.to_nat (Z.of_nat (length l + 2) + -2)) with (length l + 0)%nat
      by lia.
    rewrite lookup_app_r by lia.
    by replace (length l + 0 - length l)%nat with 0%nat by lia.
  - rewrite decide_False, decide_True by lia.
    replace (Z.to_nat (Z.of_nat (length l + 2) + -1)) with (length l + 1)%nat
      by lia.
    rewrite lookup_app_r by lia.
    by replace (length l + 1 - length l)%nat with 1%nat by lia.
Qed.

Lemma index_nonneg {A} (l : list A) (i : nat) (x : A) :
  l !! i = Some x → Praat.index l (Z.of_nat i) = Praat.Value x.
Proof.
  intros Hx. unfold Praat.index, Praat.item.
  rewrite decide_True by lia. by rewrite Nat2Z.id, Hx.
Qed.

(** ** [duration_from_vuvTextGrid] *)

(** X21. [duration_from_vuvTextGrid] raises [IndexError] on exactly one
    kind of file: a single line that is a label. On every longer file the
    two lines before a label exist, counted from the end of the file when
    the label stands on the first or the second line. *)
Theorem duration_from_vuvTextGrid_IndexError {F} (float : str → option F)
    (data_list : list str) :
  Praat.duration_from_vuvTextGrid float data_list
  = Praat.Raise Praat.IndexError
  ↔ ∃ line, data_list = [line] ∧ ¬ no_label line.
Proof.
  split.
  - intros Hraise. destruct data_list as [|line [|line' rest]].
    + discriminate Hraise.
    + exists line. split; [done|]. intros Hno.
      destruct (vuvTextGrid_for_no_label float 1 0 [line] ([], []))
        as (dl' & Hfor & _); [done| |].
      * intros [|j] line0 Hj Hline; [by injection Hline as <-|lia].
      * apply (duration_from_vuvTextGrid_Value float [line]) in Hfor.
        rewrite Hfor in Hraise. discriminate Hraise.
    + exfalso. apply duration_from_vuvTextGrid_Raise in Hraise.
      revert Hraise. apply vuvTextGrid_for_IndexError; [done|].
      apply Forall_forall. intros i Hi. apply elem_of_seq in Hi. lia.
  - intros (line & -> & Hlabel). apply duration_from_vuvTextGrid_Raise.
    cbn [length seq Praat.vuvTextGrid_for].
    rewrite (vuvTextGrid_body_line float 0 [line] line [] []) by done.
    cbn zeta.
    destruct (decide (strip line = Praat.LABEL_V)) as [HV|HV]; [done|].
    destruct (decide (strip line = Praat.LABEL_U)) as [HU|HU]; [done|].
    by destruct Hlabel.
Qed.

(** X22. On a file without a line that is a label once trimmed,
    [duration_from_vuvTextGrid] returns two empty lists and reads no
    number. *)
Theorem duration_from_vuvTextGrid_no_label {F} (float : str → option F)
    (data_list : list str) :
  Forall no_label data_list →
  Praat.duration_from_vuvTextGrid float data_list = Praat.Value ([], []).
Proof.
  intros Hno.
  destruct (vuvTextGrid_for_no_label float (length data_list) 0 data_list
              ([], [])) as (dl' & Hfor & _); [done| |].
  - intros j line _ Hline. by eapply Forall_lookup_1.
  - by eapply duration_from_vuvTextGrid_Value.
Qed.

Lemma duration_from_vuvTextGrid_no_label_witness :
  Praat.duration_from_vuvTextGrid float_of_digits
    [u "File type = ooTextFile"; u "xmin = 0 "; u "V"]
  = Praat.Value ([], []).
Proof.
  apply duration_from_vuvTextGrid_no_label.
  apply (bool_decide_unpack _). by vm_compute.
Defined.

(** X23. A label on the first line of a file takes its two times from
    the last two lines of the file, as they stand there. *)
Theorem duration_from_vuvTextGrid_first_line {F} (float : str → option F)
    (label a b : str) (mid : list str) (tmin tmax : F) :
  strip label = Praat.LABEL_V → Forall no_label (mid ++ [a; b]) →
  float a = Some tmin → float b = Some tmax →
  Praat.duration_from_vuvTextGrid float (label :: mid ++ [a; b])
  = Praat.Value ([(tmin, tmax)], []).
Proof.
  intros HV Hno Hmin Hmax.
  destruct (index_last_two (strip label :: mid) a b) as [Ha Hb].
  destruct (vuvTextGrid_for_no_label float (length (mid ++ [a; b])) 1
              (<[0%nat := strip label]> (label :: mid ++ [a; b]))
              ([(tmin, tmax)], [])) as (dl' & Hfor & _); [done| |].
  { intros [|j] line Hj Hline; [lia|].
    change ((mid ++ [a; b]) !! j = Some line) in Hline.
    by eapply Forall_lookup_1. }
  apply (duration_from_vuvTextGrid_Value float _ dl').
  cbn [length seq Praat.vuvTextGrid_for].
  rewrite (vuvTextGrid_body_V float 0 (label :: mid ++ [a; b]) label a b
             tmin tmax); done.
Qed.

Lemma duration_from_vuvTextGrid_first_line_witness :
  Praat.duration_from_vuvTextGrid float_of_digits
    (Praat.LABEL_V :: [u "xmax = 5"] ++ [u "3"; u "4"])
  = Praat.Value ([(u "3", u "4")], []).
Proof.
  apply duration_from_vuvTextGrid_first_line; try by vm_compute.
  apply (bool_decide_unpack _). by vm_compute.
Defined.

(** X24. A file whose only label is a [V] that follows two lines holding
    numbers gives one voiced segment, made of the numbers read from these
    two lines after they were trimmed, and no unvoiced segment. *)
Theorem duration_from_vuvTextGrid_one_interval {F} (float : str → option F)
    (pre post : list str) (a b label : str) (tmin tmax : F) :
  Forall no_label (pre ++ [a; b]) → Forall no_label post →
  strip label = Praat.LABEL_V →
  float (strip a) = Some tmin → float (strip b) = Some tmax →
  Praat.duration_from_vuvTextGrid float (pre ++ [a; b; label] ++ post)
  = Praat.Value ([(tmin, tmax)], []).
Proof.
  intros Hpre Hpost HV Hmin Hmax.
  set (data_list := pre ++ [a; b; label] ++ post).
  set (p := (length pre + 2)%nat).
  assert (length data_list = (p + S (length post))%nat) as Hlen.
  { subst data_list p. rewrite !length_app. cbn [length]. lia. }
  assert (∀ j, (j < p)%nat → data_list !! j = (pre ++ [a; b]) !! j) as Hlow.
  { intros j Hj. subst data_list p.
    change (pre ++ [a; b; label] ++ post)
      with (pre ++ [a; b] ++ label :: post).
    rewrite app_assoc. apply lookup_app_l. rewrite length_app. cbn [length].
    lia. }
  assert (data_list !! p = Some label) as Hp.
  { subst data_list p.
    change (pre ++ [a; b; label] ++ post)
      with (pre ++ [a; b] ++ label :: post).
    rewrite app_assoc, lookup_app_r by (rewrite length_app; cbn [length]; lia).
    rewrite length_app. cbn [length]. by rewrite Nat.sub_diag. }
  assert (∀ j line, (S p ≤ j)%nat → data_list !! j = Some line →
                    no_label line) as Hhigh.
  { intros j line Hj Hline. subst data_list p.
    rewrite app_assoc, lookup_app_r in Hline
      by (rewrite length_app; cbn [length]; lia).
    exact (Forall_lookup_1 _ _ _ _ Hpost Hline). }
  destruct (vuvTextGrid_for_no_label float p 0 data_list ([], []))
    as (dl1 & Hfor1 & Hlen1 & Hin1 & Hout1); [lia| |].
  { intros j line Hj Hline. rewrite Hlow in Hline by lia.
    exact (Forall_lookup_1 _ _ _ _ Hpre Hline). }
  assert (dl1 !! p = Some label) as Hp1 by (rewrite Hout1 by lia; done).
  assert (dl1 !! (p - 2)%nat = Some (strip a)) as Ha.
  { rewrite Hin1, Hlow by lia. subst p.
    rewrite lookup_app_r by lia.
    by replace (length pre + 2 - 2 - length pre)%nat with 0%nat by lia. }
  assert (dl1 !! (p - 1)%nat = Some (strip b)) as Hb.
  { rewrite Hin1, Hlow by lia. subst p.
    rewrite lookup_app_r by lia.
    by replace (length pre + 2 - 1 - length pre)%nat with 1%nat by lia. }
  assert (Praat.vuvTextGrid_body float p (dl1, (([], []) : Praat.segments))
          = Praat.Value (<[p := strip label]> dl1, ([(tmin, tmax)], [])))
    as Hbody.
  { apply (vuvTextGrid_body_V float p dl1 label (strip a) (strip b));
      try done.
    - replace (Z.of_nat p - 2) with (Z.of_nat (p - 2)) by lia.
      apply index_nonneg. by rewrite list_lookup_insert_ne by lia.
    - replace (Z.of_nat p - 1) with (Z.of_nat (p - 1)) by lia.
      apply index_nonneg. by rewrite list_lookup_insert_ne by lia. }
  destruct (vuvTextGrid_for_no_label float (length post) (S p)
              (<[p := strip label]> dl1) ([(tmin, tmax)], []))
    as (dl2 & Hfor2 & _); [rewrite length_insert; lia| |].
  { intros j line Hj Hline.
    rewrite list_lookup_insert_ne, Hout1 in Hline by lia.
    eapply Hhigh; [|done]. lia. }
  apply (duration_from_vuvTextGrid_Value float _ dl2).
  rewrite Hlen, seq_app, vuvTextGrid_for_app, Hfor1.
  cbn [seq mbind Praat.result_bind Praat.vuvTextGrid_for Nat.add].
  rewrite Hbody. exact Hfor2.
Qed.

Lemma duration_from_vuvTextGrid_one_interval_witness :
  Praat.duration_from_vuvTextGrid float_of_digits textgrid_lines
  = Praat.Value ([(u "0", u "12")], []).
Proof.
  apply (duration_from_vuvTextGrid_one_interval float_of_digits
           [u "intervals [1]:" ++ [Praat.NEWLINE]] []
           (u "0" ++ [Praat.NEWLINE]) (u "12" ++ [Praat.NEWLINE])
           (Praat.LABEL_V ++ [Praat.NEWLINE]));
    first [by vm_compute | apply (bool_decide_unpack _); by vm_compute].
Defined.
